(** * Convex hull by the monotone-chain sweep: a model of [convex_hull.py]

    The development follows the Python source function by function:
    [class Point], [direction] and [convex_hull].

    - The source takes any numbers as coordinates.  With Python integers,
      which are unbounded, its arithmetic is exact: this is the model
      over [Z], [Point], [direction] and [convex_hull], and the theorems
      about the geometry of the result are theorems about integer
      coordinates.  With Python floats the same lines round every
      difference and product to binary64: this is the model [F.Point],
      [F.direction] and [F.convex_hull] over Rocq's primitive floats, and
      the section on floating-point coordinates shows, by evaluating it,
      where rounding breaks those theorems.
    - A [Point] value holds the two attributes of a point object.
      [convex_hull] reads nothing else of its arguments and returns
      objects it builds itself, so lists of points are lists of such
      values.  How Python compares the objects themselves is modelled
      apart, in [PointObject].
    - The set [uniq] is a [gset]; the program runs the same on every
      listing of it ([hull_of_perm], [convex_hull_any_listing]).
    - Python lists are lists with the last element at the end, as in the
      source; the proofs go through an equivalent stack, top first. *)

From stdpp Require Import gmap sorting list.
From Stdlib Require Import ZArith Lia.
From Stdlib Require String Ascii DecimalString DecimalZ DecimalPos.
From Stdlib Require Import PrimFloat SpecFloat FloatOps.
Import String.StringSyntax Ascii.AsciiSyntax.

Delimit Scope string_scope with string.
Delimit Scope char_scope with char.
Set Warnings "-inexact-float".
Local Open Scope Z_scope.

(** ** The data model *)

(** [class Point]: an object with the two attributes [x] and [y], here
    with Python integers as coordinates.  [F.Point] below is the same
    class with floats as coordinates. *)
Record Point : Type := mkPoint { x : Z; y : Z }.

#[global] Instance Point_eq_dec : EqDecision Point.
Proof. solve_decision. Defined.

#[global] Instance Point_inhabited : Inhabited Point := populate (mkPoint 0 0).

(** [direction(a, b, c)], line 19 of the source, on integers: the
    arithmetic is exact. *)
Definition direction (a b c : Point) : Z :=
  (x b - x a) * (y c - y a) - (y b - y a) * (x c - x a).

(** [str(n)] for a Python integer: its decimal digits, after a minus sign
    when it is negative. *)
Definition str (n : Z) : String.string :=
  DecimalString.NilZero.string_of_int (Z.to_int n).

(** [Point.__repr__], line 10: [f"({self.x}, {self.y})"]. *)
Definition repr (p : Point) : String.string :=
  String.append "(" (String.append (str (x p))
    (String.append ", " (String.append (str (y p)) ")"))).

(** A [Point] object in the Python heap.  The class defines [__init__] and
    [__repr__] and nothing else: [p == q] is the default comparison of
    objects, by identity, and [p < q] is not supported (it raises
    [TypeError]).  [ident] is [id(p)]; [attrs] holds [p.x] and [p.y]. *)
Record PointObject : Type := mkObject { ident : nat; attrs : Point }.

(** [p == q] *)
Definition obj_eq (p q : PointObject) : bool := bool_decide (ident p = ident q).

(** [p < q]: [None] stands for the [TypeError]. *)
Definition obj_lt (p q : PointObject) : option bool := None.

(** ** [convex_hull] *)

(** The pair [(p.x, p.y)]: the element put in the set [uniq] (line 26) and
    the sort key of line 35. *)
Definition key (p : Point) : Z * Z := (x p, y p).

(** [Point(x, y) for (x, y) in uniq], line 27. *)
Definition of_key (k : Z * Z) : Point := mkPoint k.1 k.2.

(** [uniq = {(p.x, p.y) for p in points}], line 26. *)
Definition uniq (points : list Point) : gset (Z * Z) :=
  list_to_set (key <$> points).

(** Python's order on pairs of integers, [k1 <= k2]. *)
Definition key_le (k1 k2 : Z * Z) : Prop :=
  k1.1 < k2.1 ∨ (k1.1 = k2.1 ∧ k1.2 ≤ k2.2).

#[global] Instance key_le_dec : RelDecision key_le.
Proof. intros k1 k2. unfold key_le. solve_decision. Defined.

(** The order in which [pts.sort(key=lambda p: (p.x, p.y))] arranges the
    points: ascending keys. *)
Definition point_le (p q : Point) : Prop := key_le (key p) (key q).

#[global] Instance point_le_dec : RelDecision point_le.
Proof. intros p q. unfold point_le. apply _. Defined.

(** [pts.sort(key=...)], line 35. *)
Definition sort_points (pts : list Point) : list Point :=
  merge_sort point_le pts.

(** The inner loop, lines 44-45 and 51-52:
    [while len(chain) >= 2 and direction(chain[-2], chain[-1], p) <= 0:
       chain.pop()].
    The list is held in Python order (last element = top).  Every turn of
    the loop shortens the list, so [length chain] turns suffice; [fuel]
    counts them. *)
Fixpoint pop_loop (fuel : nat) (chain : list Point) (p : Point) : list Point :=
  match fuel with
  | O => chain
  | S fuel' =>
      let n := length chain in
      if bool_decide (2 ≤ n)%nat
         && bool_decide (direction (chain !!! (n - 2)%nat) (chain !!! (n - 1)%nat) p ≤ 0)
      then pop_loop fuel' (removelast chain) p
      else chain
  end.

(** One turn of the outer [for] loop: the [while] loop, then
    [chain.append(p)]. *)
Definition sweep_step (chain : list Point) (p : Point) : list Point :=
  pop_loop (length chain) chain p ++ [p].

(** [chain = []; for p in pts: ...], lines 38-46 and 49-53. *)
Definition sweep (pts : list Point) : list Point :=
  foldl sweep_step [] pts.

(** Lines 30-58: what [convex_hull] does once the list [pts] of distinct
    points is built. *)
Definition hull_of (pts : list Point) : list Point :=
  if bool_decide (length pts ≤ 1)%nat then pts
  else
    let pts := sort_points pts in
    let lower := sweep pts in
    let upper := sweep (reverse pts) in
    removelast lower ++ removelast upper.

(** [convex_hull(points)].  The set [uniq] is a [gset]; [elements] lists
    it in some order, as iterating over a Python set does. *)
Definition convex_hull (points : list Point) : list Point :=
  hull_of (of_key <$> elements (uniq points)).

(** ** The same program on floating-point coordinates

    Python floats are IEEE 754 binary64 numbers, and [-] and [*] on them
    round to nearest, ties to even, as Rocq's primitive floats do.  The
    definitions follow the same source lines as the ones above. *)

Module F.

(** [class Point] with float coordinates. *)
Record Point : Type := mkPoint { x : float; y : float }.

#[global] Instance Point_inhabited : Inhabited Point := populate (mkPoint 0 0).

(** [direction(a, b, c)], line 19: each difference, each product and the
    final difference is rounded. *)
Definition direction (a b c : Point) : float :=
  ((x b - x a) * (y c - y a) - (y b - y a) * (x c - x a))%float.

(** [(p.x, p.y) == (q.x, q.y)]: equality of the pairs put in the set. *)
Definition key_eqb (p q : Point) : bool :=
  PrimFloat.eqb (x p) (x q) && PrimFloat.eqb (y p) (y q).

(** [(p.x, p.y) < (q.x, q.y)]: Python compares the first components that
    differ. *)
Definition key_ltb (p q : Point) : bool :=
  if PrimFloat.eqb (x p) (x q)
  then (if PrimFloat.eqb (y p) (y q) then false else PrimFloat.ltb (y p) (y q))
  else PrimFloat.ltb (x p) (x q).

(** Lines 26-27: the distinct pairs, here in the order in which they are
    first met; the sort of line 35 makes the order of the listing
    immaterial. *)
Definition uniq (points : list Point) : list Point :=
  foldl (λ acc p, if existsb (key_eqb p) acc then acc else acc ++ [p]) [] points.

(** [pts.sort(key=...)], line 35: a stable sort that compares keys with
    [<] only. *)
Fixpoint insert (p : Point) (l : list Point) : list Point :=
  match l with
  | [] => [p]
  | q :: l' => if key_ltb p q then p :: l else q :: insert p l'
  end.

Definition sort_points (pts : list Point) : list Point :=
  foldl (λ acc p, insert p acc) [] pts.

(** The [while] loop of lines 44-45 and 51-52. *)
Fixpoint pop_loop (fuel : nat) (chain : list Point) (p : Point) : list Point :=
  match fuel with
  | O => chain
  | S fuel' =>
      let n := length chain in
      if bool_decide (2 ≤ n)%nat
         && PrimFloat.leb
              (direction (chain !!! (n - 2)%nat) (chain !!! (n - 1)%nat) p) 0
      then pop_loop fuel' (removelast chain) p
      else chain
  end.

Definition sweep_step (chain : list Point) (p : Point) : list Point :=
  pop_loop (length chain) chain p ++ [p].

Definition sweep (pts : list Point) : list Point := foldl sweep_step [] pts.

(** [convex_hull(points)], lines 24-58. *)
Definition convex_hull (points : list Point) : list Point :=
  let pts := uniq points in
  if bool_decide (length pts ≤ 1)%nat then pts
  else
    let pts := sort_points pts in
    let lower := sweep pts in
    let upper := sweep (reverse pts) in
    removelast lower ++ removelast upper.

(** The exact value of a finite float, as a multiple of [2^-1074], of
    which every finite binary64 number is an integer multiple. *)
Definition exact (f : float) : Z :=
  match Prim2SF f with
  | S754_finite s m e => (if s then Z.neg m else Z.pos m) * 2 ^ (e + 1074)
  | _ => 0
  end.

End F.

(** The point of the plane that a float point denotes, exactly, in units
    of [2^-1074]: the turns, lines and orientations of such points are
    those of the float points themselves. *)
Definition exact_point (p : F.Point) : Point :=
  mkPoint (F.exact (F.x p)) (F.exact (F.y p)).

(** ** The same sweep with the chain as a stack, top first *)

Fixpoint pop_while (stk : list Point) (p : Point) : list Point :=
  match stk with
  | b :: ((a :: _) as rest) =>
      if bool_decide (direction a b p ≤ 0) then pop_while rest p else stk
  | _ => stk
  end.

Definition push (stk : list Point) (p : Point) : list Point :=
  p :: pop_while stk p.

Definition scan (pts : list Point) : list Point := foldl push [] pts.

(** ** Orders and geometric predicates used in the statements *)

(** Strict lexicographic order by [(x, y)]. *)
Definition lex_lt (p q : Point) : Prop :=
  x p < x q ∨ (x p = x q ∧ y p < y q).

Definition lex_gt (p q : Point) : Prop := lex_lt q p.

(** [l !! i = Some u] and [l !! (i+1) = Some v] for some [i]. *)
Inductive adjacent (u v : Point) : list Point → Prop :=
  | adjacent_here l : adjacent u v (u :: v :: l)
  | adjacent_later w l : adjacent u v l → adjacent u v (w :: l).

(** The invariant of one sweep over points sorted by the strict order
    [lt]: [stk] is the chain, top first, after the points [done] were
    swept. *)
Record sweep_inv (lt : Point → Point → Prop) (done stk : list Point) : Prop := {
  inv_sub : ∀ v, v ∈ stk → v ∈ done;
  inv_sorted : StronglySorted (flip lt) stk;
  inv_top : ∀ q, q ∈ done → ∃ t s, stk = t :: s ∧ (q = t ∨ lt q t);
  inv_bot : ∀ q, q ∈ done → ∃ s b, stk = s ++ [b] ∧ (q = b ∨ lt b q);
  inv_edge : ∀ u v q, adjacent v u stk → q ∈ done → 0 ≤ direction u v q;
  inv_vertex : ∀ v a p,
    v ∈ stk → a ∈ done → p ∈ done → lt a v → lt v p → 0 < direction a v p;
  inv_popped : ∀ v, v ∈ done → v ∉ stk →
    ∃ a p, a ∈ done ∧ p ∈ done ∧ lt a v ∧ lt v p ∧ direction a v p ≤ 0
}.

(** Cyclic indexing, [h[i % len(h)]]. *)
Definition cyc (h : list Point) (i : Z) : Point :=
  h !!! Z.to_nat (i `mod` Z.of_nat (length h)).

(** [v] is a vertex of the lower boundary of [pts]: it lies strictly
    below every segment that joins an earlier point to a later one. *)
Definition lower_vertex (pts : list Point) (v : Point) : Prop :=
  ∀ a p, a ∈ pts → p ∈ pts → lex_lt a v → lex_lt v p → 0 < direction a v p.

(** [v] is a vertex of the upper boundary of [pts]. *)
Definition upper_vertex (pts : list Point) (v : Point) : Prop :=
  ∀ a p, a ∈ pts → p ∈ pts → lex_lt a v → lex_lt v p → direction a v p < 0.

(** [v] is a vertex of the boundary of [pts]. *)
Definition extreme (pts : list Point) (v : Point) : Prop :=
  lower_vertex pts v ∨ upper_vertex pts v.

(** The vector from [a] to [b], turned a quarter turn counter-clockwise. *)
Definition left_normal (a b : Point) : Point :=
  mkPoint (- (y b - y a)) (x b - x a).

(** The component of the vector from [a] to [c] along [n]. *)
Definition along (n a c : Point) : Z :=
  x n * (x c - x a) + y n * (y c - y a).

(** [c] is strictly to the left of the directed line from [a] through
    [b]: going from [a] to [b] and on to [c] turns counter-clockwise. *)
Definition left_turn (a b c : Point) : Prop := 0 < along (left_normal a b) a c.

(** [c] is strictly to the right of it: the turn is clockwise. *)
Definition right_turn (a b c : Point) : Prop := along (left_normal a b) a c < 0.

(** The line [α·x + β·y = γ]. *)
Definition on_line (α β γ : Z) (p : Point) : Prop := α * x p + β * y p = γ.

(** Some line goes through [a], [b] and [c]. *)
Definition collinear (a b c : Point) : Prop :=
  ∃ α β γ, (α ≠ 0 ∨ β ≠ 0) ∧ on_line α β γ a ∧ on_line α β γ b ∧ on_line α β γ c.

(** [q] lies on the closed segment from [u] to [v]. *)
Definition on_segment (u v q : Point) : Prop :=
  direction u v q = 0 ∧
  Z.min (x u) (x v) ≤ x q ≤ Z.max (x u) (x v) ∧
  Z.min (y u) (y v) ≤ y q ≤ Z.max (y u) (y v).

(** [q] lies on or inside the polygon with the vertices [h], listed
    counter-clockwise: for each edge, [q] is strictly to its left or on
    the edge itself.  A polygon of one vertex is that point, and one of two
    vertices is a segment. *)
Definition in_closed_polygon (h : list Point) (q : Point) : Prop :=
  h ≠ [] ∧
  ∀ i, 0 ≤ i < Z.of_nat (length h) →
    0 < direction (cyc h i) (cyc h (i + 1)) q
    ∨ on_segment (cyc h i) (cyc h (i + 1)) q.

(** [q] is a weighted mean of [u], [v] and [w] with weights that are not
    negative and not all zero: [q] lies in the triangle they span (a
    segment or a point when they are on one line or coincide). *)
Definition convex_combination3 (u v w q : Point) : Prop :=
  ∃ a b c : Z,
    0 ≤ a ∧ 0 ≤ b ∧ 0 ≤ c ∧ 0 < a + b + c ∧
    (a + b + c) * x q = a * x u + b * x v + c * x w ∧
    (a + b + c) * y q = a * y u + b * y v + c * y w.





(** The character [c] occurs in the string [s]. *)
Fixpoint occurs (c : Ascii.ascii) (s : String.string) : Prop :=
  match s with
  | String.EmptyString => False
  | String.String a s' => a = c ∨ occurs c s'
  end.

(** The characters of a printed integer. *)
Definition is_num_char (c : Ascii.ascii) : bool :=
  existsb (Ascii.eqb c)
    ["-"; "0"; "1"; "2"; "3"; "4"; "5"; "6"; "7"; "8"; "9"]%char.

(** The demo of lines 63-75: [repr] of a list, the sample [data], and the
    line that [print("Hull:", hull)] writes. *)
Definition repr_list (l : list Point) : String.string :=
  String.append "[" (String.append (String.concat ", " (repr <$> l)) "]").

Definition data : list Point :=
  [mkPoint 0 0; mkPoint 2 0; mkPoint 2 2; mkPoint 0 2;
   mkPoint 1 1; mkPoint 1 2; mkPoint 0 1; mkPoint 2 1;
   mkPoint 2 2; mkPoint 0 0].

Definition main_output : String.string :=
  String.append "Hull: " (repr_list (convex_hull data)).

(** The point [p] moved by the vector [t]. *)
Definition shift (t p : Point) : Point := mkPoint (x p + x t) (y p + y t).

(** The point [p] with both coordinates multiplied by [k]. *)
Definition scale (k : Z) (p : Point) : Point := mkPoint (k * x p) (k * y p).

(** * Properties *)

(** The sample data of the source's demo, and the degenerate inputs. *)
Example demo :
  convex_hull
    [mkPoint 0 0; mkPoint 2 0; mkPoint 2 2; mkPoint 0 2;
     mkPoint 1 1; mkPoint 1 2; mkPoint 0 1; mkPoint 2 1;
     mkPoint 2 2; mkPoint 0 0]
  = [mkPoint 0 0; mkPoint 2 0; mkPoint 2 2; mkPoint 0 2].
Proof. vm_compute. reflexivity. Qed.

Example demo_two_points :
  convex_hull [mkPoint 1 1; mkPoint 0 0] = [mkPoint 0 0; mkPoint 1 1].
Proof. vm_compute. reflexivity. Qed.

Example demo_on_a_line :
  convex_hull [mkPoint 0 0; mkPoint 1 0; mkPoint 2 0]
  = [mkPoint 0 0; mkPoint 2 0].
Proof. vm_compute. reflexivity. Qed.

Example demo_triangle_with_inner_point :
  convex_hull [mkPoint 1 1; mkPoint 3 0; mkPoint 0 0; mkPoint 0 3]
  = [mkPoint 0 0; mkPoint 3 0; mkPoint 0 3].
Proof. vm_compute. reflexivity. Qed.

(** ** The stack model refines the Python lists *)

Lemma pop_while_cons2 b a s p :
  pop_while (b :: a :: s) p =
  if bool_decide (direction a b p ≤ 0) then pop_while (a :: s) p
  else b :: a :: s.
Proof. reflexivity. Qed.

Lemma removelast_snoc (l : list Point) (a : Point) : removelast (l ++ [a]) = l.
Proof. apply removelast_last. Qed.

Lemma lookup_snoc2_fst (l : list Point) a b :
  (l ++ [a; b]) !!! (length (l ++ [a; b]) - 2)%nat = a.
Proof.
  apply list_lookup_total_correct. rewrite length_app. simpl.
  rewrite lookup_app_r by lia.
  replace (length l + 2 - 2 - length l)%nat with 0%nat by lia. reflexivity.
Qed.

Lemma lookup_snoc2_snd (l : list Point) a b :
  (l ++ [a; b]) !!! (length (l ++ [a; b]) - 1)%nat = b.
Proof.
  apply list_lookup_total_correct. rewrite length_app. simpl.
  rewrite lookup_app_r by lia.
  replace (length l + 2 - 1 - length l)%nat with 1%nat by lia. reflexivity.
Qed.

Lemma reverse_cons2 (b a : Point) s :
  reverse (b :: a :: s) = reverse s ++ [a; b].
Proof. rewrite !reverse_cons, <- app_assoc. reflexivity. Qed.

Lemma pop_loop_reverse n stk p :
  (length stk ≤ n)%nat →
  pop_loop n (reverse stk) p = reverse (pop_while stk p).
Proof.
  revert stk. induction n as [|n IH]; intros stk Hn.
  - destruct stk; [reflexivity | simpl in Hn; lia].
  - destruct stk as [|b [|a s]]; try reflexivity.
    cbn [pop_loop pop_while]. rewrite reverse_cons2.
    rewrite lookup_snoc2_fst, lookup_snoc2_snd.
    rewrite bool_decide_eq_true_2 by (rewrite length_app; simpl; lia).
    cbn [andb].
    destruct (bool_decide (direction a b p ≤ 0));
      [|symmetry; apply reverse_cons2].
    replace (reverse s ++ [a; b]) with ((reverse s ++ [a]) ++ [b])
      by (rewrite <- app_assoc; reflexivity).
    rewrite removelast_snoc, <- reverse_cons.
    apply IH. simpl in *. lia.
Qed.

Lemma sweep_step_reverse stk p :
  sweep_step (reverse stk) p = reverse (push stk p).
Proof.
  unfold sweep_step, push. rewrite length_reverse, pop_loop_reverse by lia.
  rewrite reverse_cons. reflexivity.
Qed.

Lemma foldl_sweep_reverse pts stk :
  foldl sweep_step (reverse stk) pts = reverse (foldl push stk pts).
Proof.
  revert stk. induction pts as [|p pts IH]; intros stk; [reflexivity|].
  cbn [foldl]. rewrite sweep_step_reverse. apply IH.
Qed.

Lemma sweep_scan pts : sweep pts = reverse (scan pts).
Proof. apply (foldl_sweep_reverse pts []). Qed.

(** The fuel given to the [while] loop is enough: on exit the loop
    condition is false. *)
Lemma pop_while_exit stk p a b s :
  pop_while stk p = b :: a :: s → 0 < direction a b p.
Proof.
  induction stk as [|b' [|a' s'] IH]; intros H; try discriminate.
  rewrite pop_while_cons2 in H. case_bool_decide as Hd.
  - apply IH, H.
  - injection H as -> -> _. lia.
Qed.


(** ** Adjacent pairs of a list *)

Lemma adjacent_elem u v l : adjacent u v l → u ∈ l ∧ v ∈ l.
Proof.
  induction 1 as [l | w l H [IH1 IH2]]; rewrite !elem_of_cons; auto.
Qed.

Lemma adjacent_cons_inv u v w l :
  adjacent u v (w :: l) → (u = w ∧ ∃ l', l = v :: l') ∨ adjacent u v l.
Proof. inversion 1; subst; eauto. Qed.

Lemma adjacent_app_l u v k l : adjacent u v l → adjacent u v (k ++ l).
Proof. intros H. induction k; simpl; [assumption | by constructor]. Qed.

Lemma adjacent_app_r u v l k : adjacent u v l → adjacent u v (l ++ k).
Proof. induction 1; simpl; by constructor. Qed.

Lemma adjacent_split u v l :
  adjacent u v l ↔ ∃ l1 l2, l = l1 ++ u :: v :: l2.
Proof.
  split.
  - induction 1 as [l | w l H (l1 & l2 & ->)].
    + by exists [], l.
    + by exists (w :: l1), l2.
  - intros (l1 & l2 & ->). apply adjacent_app_l. constructor.
Qed.

Lemma adjacent_reverse u v l : adjacent u v (reverse l) ↔ adjacent v u l.
Proof.
  rewrite !adjacent_split. split; intros (l1 & l2 & H).
  - exists (reverse l2), (reverse l1).
    rewrite <- (reverse_involutive l), H.
    rewrite reverse_app, !reverse_cons, <- !app_assoc. reflexivity.
  - exists (reverse l2), (reverse l1).
    rewrite H, reverse_app, !reverse_cons, <- !app_assoc. reflexivity.
Qed.

Lemma adjacent_sorted (R : relation Point) u v l :
  StronglySorted R l → adjacent u v l → R u v.
Proof.
  intros Hs Ha. induction Ha as [l | w l H IH].
  - apply StronglySorted_cons in Hs as [Hall _].
    by apply Forall_cons in Hall as [? _].
  - apply IH. by apply StronglySorted_cons in Hs as [_ ?].
Qed.

Lemma adjacent_lookup u v l :
  adjacent u v l ↔ ∃ i : nat, l !! i = Some u ∧ l !! S i = Some v.
Proof.
  split.
  - induction 1 as [l | w l H (i & ? & ?)]; [by exists 0%nat | by exists (S i)].
  - intros (i & Hu & Hv). revert l Hu Hv.
    induction i as [|i IH]; intros [|a [|b l]] Hu Hv; simplify_eq/=.
    + constructor.
    + constructor. by apply IH.
Qed.

(** Where the two halves of a list meet in one element, an adjacent pair
    lies in one half. *)
Lemma adjacent_glue u v l1 c l2 :
  adjacent u v (l1 ++ c :: l2) →
  adjacent u v (l1 ++ [c]) ∨ adjacent u v (c :: l2).
Proof.
  induction l1 as [|a l1 IH]; simpl; intros H; [by right|].
  inversion H as [l Heq | w l H' Heq]; subst.
  - left. destruct l1 as [|a' l1]; simplify_eq/=; constructor.
  - destruct (IH H') as [?|?]; [left; by constructor | by right].
Qed.

(** ** The loop that pops *)


Lemma pop_while_suffix stk p : pop_while stk p `suffix_of` stk.
Proof.
  induction stk as [|b [|a s] IH]; try reflexivity.
  rewrite pop_while_cons2. case_bool_decide; [|reflexivity].
  by apply suffix_cons_r.
Qed.

Lemma pop_while_nonempty stk p : stk ≠ [] → pop_while stk p ≠ [].
Proof.
  induction stk as [|b [|a s] IH]; intros H; try done.
  rewrite pop_while_cons2. case_bool_decide; [by apply IH | done].
Qed.

Lemma pop_while_popped stk p v :
  v ∈ stk → v ∉ pop_while stk p →
  ∃ a, adjacent v a stk ∧ direction a v p ≤ 0.
Proof.
  induction stk as [|b [|a s] IH]; intros Hin Hout; try done.
  rewrite pop_while_cons2 in Hout. case_bool_decide as Hd; [|done].
  apply elem_of_cons in Hin as [->|Hin].
  - exists a. split; [constructor | done].
  - destruct (IH Hin Hout) as (a' & ? & ?). exists a'. split; [by constructor | done].
Qed.

Lemma pop_while_below stk p a r :
  pop_while stk p = a :: r → pop_while stk p ≠ stk →
  ∃ b, adjacent b a stk ∧ direction a b p ≤ 0.
Proof.
  induction stk as [|b' [|a' s] IH]; intros Heq Hne; try done.
  rewrite pop_while_cons2 in Heq, Hne. case_bool_decide as Hd; [|done].
  destruct (decide (pop_while (a' :: s) p = a' :: s)) as [Hstop|Hgo].
  - rewrite Hstop in Heq. simplify_eq. exists b'. split; [constructor | done].
  - destruct (IH Heq Hgo) as (b & ? & ?). exists b. split; [by constructor | done].
Qed.

(** ** The sweep over a strictly sorted list

    The lower chain is swept in ascending order and the upper chain in
    descending order, so the invariant is proved once, for any strict
    total order [lt] of the plane that satisfies four facts about turns. *)

Section sweep_invariant.
Variable lt : Point → Point → Prop.
Hypothesis lt_irrefl : ∀ p, ¬ lt p p.
Hypothesis lt_trans : ∀ p q r, lt p q → lt q r → lt p r.
Hypothesis lt_total : ∀ p q, lt p q ∨ p = q ∨ lt q p.
Hypothesis turn_chain : ∀ u v w p,
  lt u v → lt v w → lt w p →
  0 < direction u v w → 0 < direction v w p → 0 < direction u v p.
Hypothesis turn_behind : ∀ a b p q,
  lt a b → lt b p → lt q b →
  0 ≤ direction a b q → 0 < direction a b p → 0 ≤ direction b p q.
Hypothesis turn_fan : ∀ a b p q,
  lt a b → lt a p → lt a q →
  0 ≤ direction a b q → direction a b p ≤ 0 → 0 ≤ direction a p q.
Hypothesis turn_wedge : ∀ a u v p,
  lt a v → lt v p → lt u v →
  0 ≤ direction u v a → 0 < direction u v p → 0 < direction a v p.


Lemma sweep_inv_nil : sweep_inv lt [] [].
Proof.
  split; try (intros; exfalso; eapply not_elem_of_nil; eassumption).
  constructor.
Qed.

Lemma direction_same_l a p : direction a p a = 0.
Proof. unfold direction. ring. Qed.

Lemma direction_same_r a p : direction a p p = 0.
Proof. unfold direction. ring. Qed.

(** Every edge that survives the pops turns left towards the new point. *)
Lemma survivors_turn_left rest p :
  StronglySorted (flip lt) rest →
  (∀ v, v ∈ rest → lt v p) →
  (∀ v a q, v ∈ rest → a ∈ rest → q ∈ rest →
            lt a v → lt v q → 0 < direction a v q) →
  (∀ b a s, rest = b :: a :: s → 0 < direction a b p) →
  ∀ u v, adjacent v u rest → 0 < direction u v p.
Proof.
  induction rest as [|t r IH]; intros Hs Hlt Hv Hhead u v Hadj;
    [inversion Hadj|].
  inversion Hadj as [l Heq | w l Hadj' Heq]; subst.
  - by eapply Hhead.
  - apply StronglySorted_cons in Hs as [Hall Hs].
    apply IH; try assumption.
    + intros; apply Hlt. by right.
    + intros; apply Hv; try assumption; by right.
    + intros b a s ->.
      apply Forall_cons in Hall as [Hbt Hall].
      apply StronglySorted_cons in Hs as [Hall' _].
      apply Forall_cons in Hall' as [Hab _].
      apply (turn_chain a b t p); try assumption.
      * apply Hlt. by left.
      * apply Hv; try assumption; rewrite !elem_of_cons; auto.
      * by eapply Hhead.
Qed.

Lemma sweep_inv_push done stk p :
  sweep_inv lt done stk → (∀ q, q ∈ done → lt q p) →
  sweep_inv lt (done ++ [p]) (push stk p).
Proof.
  intros I Hmax. unfold push.
  pose proof (pop_while_suffix stk p) as [popped Hsplit].
  set (rest := pop_while stk p) in *.
  assert (Hrest_stk : ∀ v, v ∈ rest → v ∈ stk).
  { intros v Hv. rewrite Hsplit. apply elem_of_app. by right. }
  assert (Hrest_done : ∀ v, v ∈ rest → v ∈ done).
  { intros v Hv. by apply (inv_sub _ _ _ I), Hrest_stk. }
  assert (Hrest_sorted : StronglySorted (flip lt) rest).
  { pose proof (inv_sorted _ _ _ I) as Hs. rewrite Hsplit in Hs.
    by apply StronglySorted_app_1_r in Hs. }
  assert (Hadj_stk : ∀ u v, adjacent v u rest → adjacent v u stk).
  { intros u v Hadj. rewrite Hsplit. by apply adjacent_app_l. }
  assert (Hleft : ∀ u v, adjacent v u rest → 0 < direction u v p).
  { apply survivors_turn_left; try assumption.
    - intros v Hv. by apply Hmax, Hrest_done.
    - intros v a q Hv Ha Hq. apply (inv_vertex _ _ _ I); auto.
    - intros b a s Heq. by eapply pop_while_exit. }
  assert (Hnp : ∀ q, q ∈ done → q ≠ p).
  { intros q Hq ->. by eapply lt_irrefl, Hmax. }
  split.
  - (* inv_sub *)
    intros v [->|Hv]%elem_of_cons; apply elem_of_app; [right; by left | left; auto].
  - (* inv_sorted *)
    apply StronglySorted_cons. split; [|assumption].
    apply Forall_forall. intros v Hv. apply Hmax, Hrest_done, Hv.
  - (* inv_top *)
    intros q [Hq | ->%list_elem_of_singleton]%elem_of_app;
      exists p, rest; auto.
  - (* inv_bot *)
    intros q Hq.
    destruct (decide (stk = [])) as [Hnil|Hne].
    + assert (done = []) as ->.
      { destruct done as [|d done']; [done|].
        destruct (inv_top _ _ _ I d) as (t & s & Heq & _); [by left|congruence]. }
      assert (rest = []) as -> by (subst rest; by rewrite Hnil).
      apply list_elem_of_singleton in Hq as ->. exists [], p. auto.
    + pose proof (pop_while_nonempty stk p Hne) as Hne'. fold rest in Hne'.
      destruct (exists_last Hne') as (s' & b & Hb).
      exists (p :: s'), b. split; [by rewrite Hb|].
      assert (Hbd : b ∈ done).
      { apply Hrest_done. rewrite Hb. apply elem_of_app. right. by left. }
      apply elem_of_app in Hq as [Hq | ->%list_elem_of_singleton].
      * destruct (inv_bot _ _ _ I q Hq) as (s0 & b0 & Heq0 & Hb0).
        assert (b0 = b) as ->; [|done].
        rewrite Hsplit, Hb, app_assoc in Heq0.
        by apply app_inj_tail in Heq0 as [_ ?].
      * right. by apply Hmax.
  - (* inv_edge *)
    intros u v q Hadj Hq.
    apply adjacent_cons_inv in Hadj as [[-> [l Heq]] | Hadj'].
    + (* the new edge, from the top [u] of [rest] to [p] *)
      apply elem_of_app in Hq as [Hq | ->%list_elem_of_singleton];
        [|rewrite direction_same_r; lia].
      destruct (lt_total q u) as [Hqu | [-> | Huq]].
      * destruct l as [|u' l].
        { exfalso. destruct (inv_bot _ _ _ I q Hq) as (s0 & b0 & Heq0 & Hb0).
          assert (b0 = u) as ->.
          { rewrite Hsplit, Heq in Heq0.
            by apply app_inj_tail in Heq0 as [_ ?]. }
          destruct Hb0 as [->|Hb0]; [by eapply lt_irrefl|].
          eapply lt_irrefl, lt_trans; eassumption. }
        assert (Hadj' : adjacent u u' rest) by (rewrite Heq; constructor).
        apply (turn_behind u' u p q); try assumption.
        -- by apply (adjacent_sorted _ _ _ _ Hrest_sorted Hadj').
        -- apply Hmax, Hrest_done. rewrite Heq. by left.
        -- apply (inv_edge _ _ _ I); [by apply Hadj_stk | done].
        -- by apply Hleft.
      * rewrite direction_same_l. lia.
      * destruct (decide (rest = stk)) as [Hsame|Hdiff].
        { exfalso. destruct (inv_top _ _ _ I q Hq) as (t & s & Heq0 & Ht).
          assert (t = u) as -> by congruence.
          destruct Ht as [->|Ht]; [by eapply lt_irrefl|].
          eapply lt_irrefl, lt_trans; eassumption. }
        destruct (pop_while_below stk p u l) as (b & Hadjb & Hdb); [done|done|].
        assert (Hbd : b ∈ done).
        { apply (inv_sub _ _ _ I). by apply adjacent_elem in Hadjb as [? _]. }
        apply (turn_fan u b p q); try assumption.
        -- by apply (adjacent_sorted _ _ _ _ (inv_sorted _ _ _ I) Hadjb).
        -- apply Hmax, Hrest_done. rewrite Heq. by left.
        -- by apply (inv_edge _ _ _ I).
    + (* an edge that was there before *)
      apply elem_of_app in Hq as [Hq | ->%list_elem_of_singleton].
      * apply (inv_edge _ _ _ I); [by apply Hadj_stk | done].
      * apply Z.lt_le_incl. by apply Hleft.
  - (* inv_vertex *)
    intros v a q Hv Ha Hq Hav Hvq.
    assert (Hqd : q ∈ done ∨ q = p).
    { apply elem_of_app in Hq as [?|?%list_elem_of_singleton]; auto. }
    assert (Had : a ∈ done ∨ a = p).
    { apply elem_of_app in Ha as [?|?%list_elem_of_singleton]; auto. }
    apply elem_of_cons in Hv as [->|Hv].
    { exfalso. destruct Hqd as [Hqd | ->]; [|by eapply lt_irrefl].
      eapply lt_irrefl, lt_trans; [exact Hvq | by apply Hmax]. }
    destruct Had as [Had | ->].
    2:{ exfalso. eapply lt_irrefl, lt_trans; [exact Hav | by apply Hmax, Hrest_done]. }
    destruct Hqd as [Hqd | ->].
    { apply (inv_vertex _ _ _ I); auto. }
    (* [v] is not the bottom of the chain, since [a] is before it *)
    apply list_elem_of_split in Hv as (l1 & l2 & Hv).
    destruct l2 as [|u l2].
    { exfalso. destruct (inv_bot _ _ _ I a Had) as (s0 & b0 & Heq0 & Hb0).
      assert (b0 = v) as ->.
      { rewrite Hsplit, Hv, app_assoc in Heq0.
        by apply app_inj_tail in Heq0 as [_ ?]. }
      destruct Hb0 as [->|Hb0]; [by eapply lt_irrefl|].
      eapply lt_irrefl, lt_trans; eassumption. }
    assert (Hadj : adjacent v u rest).
    { rewrite Hv. apply adjacent_app_l. constructor. }
    apply (turn_wedge a u v p); try assumption.
    + by apply (adjacent_sorted _ _ _ _ Hrest_sorted Hadj).
    + apply (inv_edge _ _ _ I); [by apply Hadj_stk | done].
    + by apply Hleft.
  - (* inv_popped *)
    intros v Hv Hout.
    apply elem_of_app in Hv as [Hv | ->%list_elem_of_singleton];
      [|exfalso; apply Hout; by left].
    assert (Hout' : v ∉ rest) by (intros ?; apply Hout; by right).
    destruct (decide (v ∈ stk)) as [Hin|Hnin].
    + destruct (pop_while_popped stk p v Hin Hout') as (a & Hadj & Hd).
      exists a, p. repeat split.
      * apply elem_of_app. left. apply (inv_sub _ _ _ I).
        by apply adjacent_elem in Hadj as [_ ?].
      * apply elem_of_app. right. by left.
      * by apply (adjacent_sorted _ _ _ _ (inv_sorted _ _ _ I) Hadj).
      * by apply Hmax.
      * done.
    + destruct (inv_popped _ _ _ I v Hv Hnin) as (a & q & ? & ? & ? & ? & ?).
      exists a, q. repeat split; try assumption; apply elem_of_app; by left.
Qed.

Lemma sweep_inv_foldl rest done stk :
  sweep_inv lt done stk → StronglySorted lt (done ++ rest) →
  sweep_inv lt (done ++ rest) (foldl push stk rest).
Proof.
  revert done stk. induction rest as [|p rest IH]; intros done stk I Hs.
  - by rewrite app_nil_r.
  - cbn [foldl]. rewrite (assoc_L (++) done [p] rest : done ++ p :: rest = (done ++ [p]) ++ rest).
    apply IH.
    + apply sweep_inv_push; [assumption|].
      intros q Hq. apply (StronglySorted_app_1_elem_of _ _ _ _ _ Hs Hq). by left.
    + by rewrite <- (assoc_L (++) done [p] rest).
Qed.

Lemma scan_inv pts : StronglySorted lt pts → sweep_inv lt pts (scan pts).
Proof. intros Hs. apply (sweep_inv_foldl pts [] []); [apply sweep_inv_nil | done]. Qed.

(** What one sweep returns, on the Python list. *)
Section sweep_spec.
Variable pts : list Point.
Hypothesis pts_sorted : StronglySorted lt pts.

(** The chain is sorted like the input. *)
Lemma sweep_sorted : StronglySorted lt (sweep pts).
Proof.
  rewrite sweep_scan.
  pose proof (inv_sorted _ _ _ (scan_inv pts pts_sorted)) as Hs.
  induction Hs as [|a l Hs IH Hall]; [constructor|].
  rewrite reverse_cons. apply StronglySorted_app_2; [|assumption|repeat constructor].
  intros u v Hu ->%list_elem_of_singleton.
  rewrite Forall_forall in Hall. by apply Hall, elem_of_reverse.
Qed.

(** A point is kept exactly when it lies strictly to the right of
    every segment that joins an earlier input point to a later one. *)
Lemma sweep_elem v :
  v ∈ sweep pts ↔
  v ∈ pts ∧ ∀ a p, a ∈ pts → p ∈ pts → lt a v → lt v p → 0 < direction a v p.
Proof.
  rewrite sweep_scan, elem_of_reverse.
  pose proof (scan_inv pts pts_sorted) as I. split.
  - intros Hv. split; [by apply (inv_sub _ _ _ I)|].
    intros a p Ha Hp. by apply (inv_vertex _ _ _ I).
  - intros [Hv Hturn].
    destruct (decide (v ∈ scan pts)) as [|Hout]; [done|exfalso].
    destruct (inv_popped _ _ _ I v Hv Hout) as (a & p & Ha & Hp & Hav & Hvp & Hd).
    specialize (Hturn a p Ha Hp Hav Hvp). lia.
Qed.

(** Every input point is on or to the left of every edge of the chain. *)
Lemma sweep_edge u v q :
  adjacent u v (sweep pts) → q ∈ pts → 0 ≤ direction u v q.
Proof.
  rewrite sweep_scan, adjacent_reverse.
  apply (inv_edge _ _ _ (scan_inv pts pts_sorted)).
Qed.

(** The chain starts at the first point of the order and ends at the
    last. *)
Lemma sweep_first q :
  q ∈ pts → ∃ b s, sweep pts = b :: s ∧ (q = b ∨ lt b q).
Proof.
  intros Hq. rewrite sweep_scan.
  destruct (inv_bot _ _ _ (scan_inv pts pts_sorted) q Hq) as (s & b & -> & Hb).
  exists b, (reverse s). by rewrite reverse_app.
Qed.

Lemma sweep_last q :
  q ∈ pts → ∃ s t, sweep pts = s ++ [t] ∧ (q = t ∨ lt q t).
Proof.
  intros Hq. rewrite sweep_scan.
  destruct (inv_top _ _ _ (scan_inv pts pts_sorted) q Hq) as (t & s & -> & Ht).
  exists (reverse s), t. by rewrite reverse_cons.
Qed.

Lemma sweep_ends p0 :
  p0 ∈ pts →
  ∃ b t s s', sweep pts = b :: s ∧ sweep pts = s' ++ [t] ∧
    b ∈ pts ∧ t ∈ pts ∧
    (∀ q, q ∈ pts → q = b ∨ lt b q) ∧ (∀ q, q ∈ pts → q = t ∨ lt q t).
Proof.
  intros H0.
  destruct (sweep_first p0 H0) as (b & s & Hb & _).
  destruct (sweep_last p0 H0) as (s' & t & Ht & _).
  exists b, t, s, s'. split; [done|]. split; [done|].
  assert (Hin : ∀ v, v ∈ sweep pts → v ∈ pts) by (intros v Hv; by apply sweep_elem).
  split; [apply Hin; rewrite Hb; by left|].
  split; [apply Hin; rewrite Ht; apply elem_of_app; right; by left|].
  split; intros q Hq.
  - destruct (sweep_first q Hq) as (b' & s1 & Hb' & Hq').
    rewrite Hb in Hb'. by simplify_eq.
  - destruct (sweep_last q Hq) as (s1 & t' & Ht' & Hq').
    rewrite Ht in Ht'. by apply app_inj_tail in Ht' as [_ ->].
Qed.
End sweep_spec.
End sweep_invariant.

(** ** The two orders of the sweeps *)

Ltac coords :=
  unfold lex_gt, lex_lt, point_le, key_le, key, direction in *;
  repeat match goal with p : Point |- _ => destruct p end;
  cbn [x y fst snd] in *.

Lemma lex_lt_irrefl p : ¬ lex_lt p p.
Proof. coords. lia. Qed.

Lemma lex_lt_trans p q r : lex_lt p q → lex_lt q r → lex_lt p r.
Proof. coords. lia. Qed.

Lemma lex_lt_total p q : lex_lt p q ∨ p = q ∨ lex_lt q p.
Proof.
  destruct (decide (p = q)) as [|Hne]; [auto|].
  assert (x p ≠ x q ∨ y p ≠ y q) as Hc.
  { destruct p as [a b], q as [c d]; cbn.
    destruct (decide (a = c)) as [->|]; [|auto].
    destruct (decide (b = d)) as [->|]; [congruence|auto]. }
  coords. lia.
Qed.

Lemma lex_turn_chain u v w p :
  lex_lt u v → lex_lt v w → lex_lt w p →
  0 < direction u v w → 0 < direction v w p → 0 < direction u v p.
Proof. coords. nia. Qed.

Lemma lex_turn_behind a b p q :
  lex_lt a b → lex_lt b p → lex_lt q b →
  0 ≤ direction a b q → 0 < direction a b p → 0 ≤ direction b p q.
Proof. coords. nia. Qed.

Lemma lex_turn_fan a b p q :
  lex_lt a b → lex_lt a p → lex_lt a q →
  0 ≤ direction a b q → direction a b p ≤ 0 → 0 ≤ direction a p q.
Proof. coords. nia. Qed.

Lemma lex_turn_wedge a u v p :
  lex_lt a v → lex_lt v p → lex_lt u v →
  0 ≤ direction u v a → 0 < direction u v p → 0 < direction a v p.
Proof. coords. nia. Qed.

(** The descending order has the same four properties: the half turn
    [p ↦ -p] about the origin reverses the order and keeps every turn. *)
Lemma gt_turn_chain u v w p :
  lex_gt u v → lex_gt v w → lex_gt w p →
  0 < direction u v w → 0 < direction v w p → 0 < direction u v p.
Proof. coords. nia. Qed.

Lemma gt_turn_behind a b p q :
  lex_gt a b → lex_gt b p → lex_gt q b →
  0 ≤ direction a b q → 0 < direction a b p → 0 ≤ direction b p q.
Proof. coords. nia. Qed.

Lemma gt_turn_fan a b p q :
  lex_gt a b → lex_gt a p → lex_gt a q →
  0 ≤ direction a b q → direction a b p ≤ 0 → 0 ≤ direction a p q.
Proof. coords. nia. Qed.

Lemma gt_turn_wedge a u v p :
  lex_gt a v → lex_gt v p → lex_gt u v →
  0 ≤ direction u v a → 0 < direction u v p → 0 < direction a v p.
Proof. coords. nia. Qed.

Lemma lex_gt_irrefl p : ¬ lex_gt p p.
Proof. apply lex_lt_irrefl. Qed.

Lemma lex_gt_trans p q r : lex_gt p q → lex_gt q r → lex_gt p r.
Proof. unfold lex_gt. eauto using lex_lt_trans. Qed.

Lemma lex_gt_total p q : lex_gt p q ∨ p = q ∨ lex_gt q p.
Proof. unfold lex_gt. destruct (lex_lt_total p q) as [?|[?|?]]; auto. Qed.

(** ** Sorting *)

#[global] Instance point_le_total : Total point_le.
Proof. intros p q. coords. lia. Qed.

#[global] Instance point_le_trans : Transitive point_le.
Proof. intros p q r. coords. lia. Qed.

#[global] Instance point_le_antisymm : AntiSymm (=) point_le.
Proof. intros [a b] [c d]. coords. intros. f_equal; lia. Qed.

Lemma point_le_lex_lt p q : point_le p q → p ≠ q → lex_lt p q.
Proof.
  intros Hle Hne.
  destruct (lex_lt_total p q) as [?|[?|Hgt]]; [done|done|].
  exfalso. apply Hne. apply (anti_symm point_le); [done|].
  clear Hle Hne. coords. lia.
Qed.

Lemma lex_lt_point_le p q : lex_lt p q → point_le p q.
Proof. coords. lia. Qed.

Lemma StronglySorted_strict (l : list Point) :
  StronglySorted point_le l → NoDup l → StronglySorted lex_lt l.
Proof.
  induction 1 as [|a l Hs IH Hall]; intros Hnd; [constructor|].
  apply NoDup_cons in Hnd as [Hnotin Hnd]. constructor; [auto|].
  rewrite Forall_forall in *. intros q Hq.
  apply point_le_lex_lt; [auto|]. by intros ->.
Qed.

Lemma StronglySorted_reverse (R : relation Point) l :
  StronglySorted R l → StronglySorted (flip R) (reverse l).
Proof.
  induction 1 as [|a l Hs IH Hall]; [constructor|].
  rewrite reverse_cons. apply StronglySorted_app_2; [|assumption|repeat constructor].
  intros u v Hu ->%list_elem_of_singleton.
  rewrite Forall_forall in Hall. by apply Hall, elem_of_reverse.
Qed.

Lemma sort_points_perm pts : sort_points pts ≡ₚ pts.
Proof. apply merge_sort_Permutation. Qed.

Lemma sort_points_elem pts q : q ∈ sort_points pts ↔ q ∈ pts.
Proof. by rewrite sort_points_perm. Qed.

Lemma sort_points_sorted pts : StronglySorted point_le (sort_points pts).
Proof. apply StronglySorted_merge_sort; apply _. Qed.

Lemma sort_points_strict pts :
  NoDup pts → StronglySorted lex_lt (sort_points pts).
Proof.
  intros Hnd. apply StronglySorted_strict; [apply sort_points_sorted|].
  by rewrite sort_points_perm.
Qed.

Lemma sort_points_reverse_strict pts :
  NoDup pts → StronglySorted lex_gt (reverse (sort_points pts)).
Proof. intros Hnd. by apply (StronglySorted_reverse lex_lt), sort_points_strict. Qed.

(** The sorted list does not depend on the order in which the set was
    listed. *)
Lemma sort_points_unique pts pts' :
  pts ≡ₚ pts' → NoDup pts → sort_points pts = sort_points pts'.
Proof.
  intros Hp Hnd.
  apply (StronglySorted_unique point_le); try apply sort_points_sorted.
  by rewrite !sort_points_perm.
Qed.

(** ** The lower and the upper chain *)

Lemma direction_swap a b c : direction c b a = - direction a b c.
Proof. unfold direction. ring. Qed.

Lemma direction_rotate a b c : direction b c a = direction a b c.
Proof. unfold direction. ring. Qed.

Section chains.
Variable pts : list Point.
Hypothesis pts_sorted : StronglySorted lex_lt pts.

Lemma rev_sorted : StronglySorted lex_gt (reverse pts).
Proof. by apply (StronglySorted_reverse lex_lt). Qed.

Lemma lower_elem v : v ∈ sweep pts ↔ v ∈ pts ∧ lower_vertex pts v.
Proof.
  apply (sweep_elem lex_lt lex_lt_irrefl lex_lt_trans lex_lt_total
           lex_turn_chain lex_turn_behind lex_turn_fan lex_turn_wedge
           _ pts_sorted).
Qed.

Lemma upper_elem v : v ∈ sweep (reverse pts) ↔ v ∈ pts ∧ upper_vertex pts v.
Proof.
  rewrite (sweep_elem lex_gt lex_gt_irrefl lex_gt_trans lex_gt_total
             gt_turn_chain gt_turn_behind gt_turn_fan gt_turn_wedge
             _ rev_sorted).
  rewrite elem_of_reverse. unfold upper_vertex, lex_gt.
  split; intros [Hv Hturn]; (split; [done|]); intros a p Ha Hp Hav Hvp.
  - specialize (Hturn p a). rewrite direction_swap, !elem_of_reverse in Hturn.
    specialize (Hturn Hp Ha Hvp Hav). lia.
  - rewrite !elem_of_reverse in *. rewrite direction_swap.
    specialize (Hturn p a Hp Ha Hvp Hav). lia.
Qed.

Lemma lower_edge u v q :
  adjacent u v (sweep pts) → q ∈ pts → 0 ≤ direction u v q.
Proof.
  apply (sweep_edge lex_lt lex_lt_irrefl lex_lt_trans lex_lt_total
           lex_turn_chain lex_turn_behind lex_turn_fan lex_turn_wedge
           _ pts_sorted).
Qed.

Lemma upper_edge u v q :
  adjacent u v (sweep (reverse pts)) → q ∈ pts → 0 ≤ direction u v q.
Proof.
  intros Hadj Hq.
  apply (sweep_edge lex_gt lex_gt_irrefl lex_gt_trans lex_gt_total
           gt_turn_chain gt_turn_behind gt_turn_fan gt_turn_wedge
           _ rev_sorted u v q Hadj).
  by apply elem_of_reverse.
Qed.

Lemma lower_sorted : StronglySorted lex_lt (sweep pts).
Proof.
  apply (sweep_sorted lex_lt lex_lt_irrefl lex_lt_trans lex_lt_total
           lex_turn_chain lex_turn_behind lex_turn_fan lex_turn_wedge
           _ pts_sorted).
Qed.

Lemma upper_sorted : StronglySorted lex_gt (sweep (reverse pts)).
Proof.
  apply (sweep_sorted lex_gt lex_gt_irrefl lex_gt_trans lex_gt_total
           gt_turn_chain gt_turn_behind gt_turn_fan gt_turn_wedge
           _ rev_sorted).
Qed.

(** With two points or more, both chains run between the least point
    [m] and the greatest point [M] of the input. *)
Lemma chains_shape p1 p2 :
  p1 ∈ pts → p2 ∈ pts → p1 ≠ p2 →
  ∃ m M lo up,
    sweep pts = m :: lo ++ [M] ∧ sweep (reverse pts) = M :: up ++ [m] ∧
    m ∈ pts ∧ M ∈ pts ∧ lex_lt m M ∧
    (∀ q, q ∈ pts → q = m ∨ lex_lt m q) ∧
    (∀ q, q ∈ pts → q = M ∨ lex_lt q M).
Proof.
  intros H1 H2 Hne.
  destruct (sweep_ends lex_lt lex_lt_irrefl lex_lt_trans lex_lt_total
              lex_turn_chain lex_turn_behind lex_turn_fan lex_turn_wedge
              pts pts_sorted p1 H1)
    as (m & M & s & s' & Hlo1 & Hlo2 & Hm & HM & Hmin & Hmax).
  destruct (sweep_ends lex_gt lex_gt_irrefl lex_gt_trans lex_gt_total
              gt_turn_chain gt_turn_behind gt_turn_fan gt_turn_wedge
              _ rev_sorted p1 (elem_of_reverse_2 _ _ H1))
    as (M' & m' & t & t' & Hup1 & Hup2 & HM' & Hm' & Hmax' & Hmin').
  rewrite elem_of_reverse in HM', Hm'.
  assert (M' = M) as ->.
  { destruct (Hmax M' HM') as [|Ha]; [done|].
    destruct (Hmax' M) as [|Hb]; [by apply elem_of_reverse|done|].
    exfalso. eapply lex_lt_irrefl, lex_lt_trans; [exact Ha | exact Hb]. }
  assert (m' = m) as ->.
  { destruct (Hmin m' Hm') as [|Ha]; [done|].
    destruct (Hmin' m) as [|Hb]; [by apply elem_of_reverse|done|].
    exfalso. eapply lex_lt_irrefl, lex_lt_trans; [exact Ha | exact Hb]. }
  assert (HmM : lex_lt m M).
  { destruct (Hmin M HM) as [->|]; [exfalso|done].
    assert (∀ q, q ∈ pts → q = m) as Hall.
    { intros q Hq. destruct (Hmin q Hq) as [|Ha]; [done|].
      destruct (Hmax q Hq) as [|Hb]; [done|].
      exfalso. eapply lex_lt_irrefl, lex_lt_trans; [exact Ha | exact Hb]. }
    apply Hne. by rewrite (Hall p1), (Hall p2). }
  assert (m ≠ M) as HneM by (intros ->; by eapply lex_lt_irrefl).
  exists m, M.
  assert (∃ lo, s = lo ++ [M]) as [lo ->].
  { destruct s as [|a s0] using rev_ind.
    - rewrite Hlo1 in Hlo2. destruct s' as [|? [|? ?]]; simplify_eq/=.
    - exists s0. rewrite Hlo1 in Hlo2.
      change (m :: s0 ++ [a]) with ((m :: s0) ++ [a]) in Hlo2.
      by apply app_inj_tail in Hlo2 as [_ ->]. }
  assert (∃ up, t = up ++ [m]) as [up ->].
  { destruct t as [|a t0] using rev_ind.
    - rewrite Hup1 in Hup2. destruct t' as [|? [|? ?]]; simplify_eq/=.
    - exists t0. rewrite Hup1 in Hup2.
      change (M :: t0 ++ [a]) with ((M :: t0) ++ [a]) in Hup2.
      by apply app_inj_tail in Hup2 as [_ ->]. }
  exists lo, up. repeat split; try assumption.
Qed.
End chains.

(** ** The hull of two or more distinct points *)

Lemma lower_vertex_ext l1 l2 v :
  (∀ q, q ∈ l1 ↔ q ∈ l2) → lower_vertex l1 v ↔ lower_vertex l2 v.
Proof.
  intros H. unfold lower_vertex.
  split; intros Hv a p Ha Hp; apply Hv; by apply H.
Qed.

Lemma upper_vertex_ext l1 l2 v :
  (∀ q, q ∈ l1 ↔ q ∈ l2) → upper_vertex l1 v ↔ upper_vertex l2 v.
Proof.
  intros H. unfold upper_vertex.
  split; intros Hv a p Ha Hp; apply Hv; by apply H.
Qed.

Lemma StronglySorted_NoDup (R : relation Point) l :
  (∀ p, ¬ R p p) → StronglySorted R l → NoDup l.
Proof.
  intros Hirr. induction 1 as [|a l Hs IH Hall]; constructor; [|done].
  intros Ha. rewrite Forall_forall in Hall. by eapply Hirr, Hall.
Qed.

Lemma two_distinct (l : list Point) :
  NoDup l → (2 ≤ length l)%nat → ∃ p1 p2, p1 ∈ l ∧ p2 ∈ l ∧ p1 ≠ p2.
Proof.
  destruct l as [|p1 [|p2 l]]; simpl; intros Hnd Hlen; try lia.
  exists p1, p2. rewrite !elem_of_cons. repeat split; auto.
  intros ->. apply NoDup_cons in Hnd as [Hn _]. apply Hn. by left.
Qed.

Section hull.
Variable pts : list Point.
Hypothesis pts_nodup : NoDup pts.
Hypothesis pts_two : (2 ≤ length pts)%nat.

Lemma hull_of_unfold :
  hull_of pts =
  removelast (sweep (sort_points pts))
  ++ removelast (sweep (reverse (sort_points pts))).
Proof. unfold hull_of. rewrite bool_decide_eq_false_2 by lia. reflexivity. Qed.

Lemma hull_of_shape :
  ∃ m M lo up,
    hull_of pts = (m :: lo) ++ (M :: up) ∧
    sweep (sort_points pts) = m :: lo ++ [M] ∧
    sweep (reverse (sort_points pts)) = M :: up ++ [m] ∧
    m ∈ pts ∧ M ∈ pts ∧ lex_lt m M ∧
    (∀ q, q ∈ pts → q = m ∨ lex_lt m q) ∧
    (∀ q, q ∈ pts → q = M ∨ lex_lt q M).
Proof.
  destruct (two_distinct pts pts_nodup pts_two) as (p1 & p2 & H1 & H2 & Hne).
  destruct (chains_shape (sort_points pts) (sort_points_strict _ pts_nodup) p1 p2)
    as (m & M & lo & up & Hlo & Hup & Hm & HM & HmM & Hmin & Hmax);
    [by apply sort_points_elem..|done|].
  exists m, M, lo, up.
  rewrite hull_of_unfold, Hlo, Hup.
  change (m :: lo ++ [M]) with ((m :: lo) ++ [M]).
  change (M :: up ++ [m]) with ((M :: up) ++ [m]).
  rewrite !removelast_snoc.
  rewrite sort_points_elem in Hm, HM.
  repeat split; try done; intros q Hq; [apply Hmin | apply Hmax];
    by apply sort_points_elem.
Qed.

Lemma hull_of_elem v :
  v ∈ hull_of pts ↔ v ∈ pts ∧ (lower_vertex pts v ∨ upper_vertex pts v).
Proof.
  destruct hull_of_shape
    as (m & M & lo & up & -> & Hlo & Hup & Hm & HM & HmM & Hmin & Hmax).
  pose proof (lower_elem _ (sort_points_strict _ pts_nodup) v) as Hl.
  pose proof (upper_elem _ (sort_points_strict _ pts_nodup) v) as Hu.
  rewrite Hlo in Hl. rewrite Hup in Hu.
  rewrite sort_points_elem in Hl, Hu.
  rewrite (lower_vertex_ext _ pts) in Hl by apply sort_points_elem.
  rewrite (upper_vertex_ext _ pts) in Hu by apply sort_points_elem.
  change (m :: lo ++ [M]) with ((m :: lo) ++ [M]) in Hl.
  change (M :: up ++ [m]) with ((M :: up) ++ [m]) in Hu.
  rewrite elem_of_app, list_elem_of_singleton in Hl, Hu.
  rewrite elem_of_app. split.
  - intros [Hv|Hv].
    + destruct (proj1 Hl (or_introl Hv)) as [? ?]. auto.
    + destruct (proj1 Hu (or_introl Hv)) as [? ?]. auto.
  - intros [Hv [Hlv|Huv]].
    + destruct (proj2 Hl (conj Hv Hlv)) as [?| ->]; [by left|right; by left].
    + destruct (proj2 Hu (conj Hv Huv)) as [?| ->]; [by right|left; by left].
Qed.

Lemma hull_of_NoDup : NoDup (hull_of pts).
Proof.
  destruct hull_of_shape
    as (m & M & lo & up & -> & Hlo & Hup & Hm & HM & HmM & Hmin & Hmax).
  pose proof (sort_points_strict _ pts_nodup) as Hs.
  pose proof (StronglySorted_NoDup _ _ lex_lt_irrefl (lower_sorted _ Hs)) as Hnl.
  pose proof (StronglySorted_NoDup _ _ lex_gt_irrefl (upper_sorted _ Hs)) as Hnu.
  rewrite Hlo in Hnl. rewrite Hup in Hnu.
  change (m :: lo ++ [M]) with ((m :: lo) ++ [M]) in Hnl.
  change (M :: up ++ [m]) with ((M :: up) ++ [m]) in Hnu.
  apply NoDup_app in Hnl as (Hnl & HlM & _).
  apply NoDup_app in Hnu as (Hnu & Hum & _).
  apply NoDup_app. split; [done|]. split; [|done].
  intros v Hvl Hvu.
  assert (Hl : v ∈ sweep (sort_points pts)).
  { rewrite Hlo. change (m :: lo ++ [M]) with ((m :: lo) ++ [M]).
    apply elem_of_app. by left. }
  assert (Hu : v ∈ sweep (reverse (sort_points pts))).
  { rewrite Hup. change (M :: up ++ [m]) with ((M :: up) ++ [m]).
    apply elem_of_app. by left. }
  apply (lower_elem _ Hs) in Hl as [Hv Hl].
  apply (upper_elem _ Hs) in Hu as [_ Hu].
  rewrite sort_points_elem in Hv.
  assert (lex_lt m v).
  { destruct (Hmin v Hv) as [->|]; [|done].
    exfalso. apply (Hum m Hvu). by left. }
  assert (lex_lt v M).
  { destruct (Hmax v Hv) as [->|]; [|done].
    exfalso. apply (HlM M Hvl). by left. }
  specialize (Hl m M). specialize (Hu m M).
  rewrite !sort_points_elem in Hl, Hu.
  specialize (Hl Hm HM). specialize (Hu Hm HM). 
  assert (0 < direction m v M) by auto. assert (direction m v M < 0) by auto. lia.
Qed.

(** Every input point is on or to the left of every edge of the closed
    walk along the hull. *)
Lemma hull_of_edge u v q :
  adjacent u v (hull_of pts ++ take 1 (hull_of pts)) → q ∈ pts →
  0 ≤ direction u v q.
Proof.
  destruct hull_of_shape
    as (m & M & lo & up & -> & Hlo & Hup & Hm & HM & HmM & Hmin & Hmax).
  pose proof (sort_points_strict _ pts_nodup) as Hs.
  intros Hadj Hq. apply (sort_points_elem pts) in Hq.
  change (take 1 ((m :: lo) ++ M :: up)) with [m] in Hadj.
  rewrite <- app_assoc in Hadj.
  apply adjacent_glue in Hadj as [Hadj|Hadj].
  - apply (lower_edge _ Hs); [|done]. by rewrite Hlo.
  - apply (upper_edge _ Hs); [|done]. by rewrite Hup.
Qed.
End hull.

(** ** Deduplication *)

#[global] Instance of_key_inj : Inj (=) (=) of_key.
Proof. intros [a b] [c d] H. unfold of_key in H. simplify_eq/=. reflexivity. Qed.

Lemma of_key_key p : of_key (key p) = p.
Proof. by destruct p. Qed.

Lemma key_of_key k : key (of_key k) = k.
Proof. by destruct k. Qed.

#[global] Instance key_inj : Inj (=) (=) key.
Proof. intros p q H. by rewrite <- (of_key_key p), H, of_key_key. Qed.

(** Any listing [e] of the set [uniq points] gives a duplicate-free list
    with the coordinates of the input. *)
Lemma listing_NoDup (e : list (Z * Z)) : NoDup e → NoDup (of_key <$> e).
Proof. apply NoDup_fmap_2, _. Qed.

Lemma listing_elem points (e : list (Z * Z)) q :
  (∀ k, k ∈ e ↔ k ∈ uniq points) → q ∈ of_key <$> e ↔ q ∈ points.
Proof.
  intros He. rewrite list_elem_of_fmap. split.
  - intros (k & -> & Hk). apply He in Hk. unfold uniq in Hk.
    apply elem_of_list_to_set, list_elem_of_fmap in Hk as (p & -> & Hp).
    by rewrite of_key_key.
  - intros Hq. exists (key q). split; [by rewrite of_key_key|].
    apply He. unfold uniq. apply elem_of_list_to_set, list_elem_of_fmap. eauto.
Qed.

Lemma distinct_NoDup points : NoDup (of_key <$> elements (uniq points)).
Proof. apply listing_NoDup, NoDup_elements. Qed.

Lemma distinct_elem points q :
  q ∈ of_key <$> elements (uniq points) ↔ q ∈ points.
Proof. apply listing_elem. intros k. apply elem_of_elements. Qed.

(** ** The vertices of the hull *)

Lemma hull_of_short pts : (length pts ≤ 1)%nat → hull_of pts = pts.
Proof. intros H. unfold hull_of. by rewrite bool_decide_eq_true_2. Qed.

Lemma short_list (l : list Point) :
  (length l ≤ 1)%nat → l = [] ∨ ∃ p, l = [p].
Proof. destruct l as [|p [|q l]]; simpl; intros; [auto|eauto|lia]. Qed.

Lemma hull_of_vertices pts v :
  NoDup pts →
  v ∈ hull_of pts ↔ v ∈ pts ∧ (lower_vertex pts v ∨ upper_vertex pts v).
Proof.
  intros Hnd. destruct (decide (length pts ≤ 1)%nat) as [Hshort|Hlong].
  - rewrite hull_of_short by done. split; [|tauto].
    intros Hv. split; [done|]. left. intros a p Ha Hp Hav Hvp. exfalso.
    destruct (short_list pts Hshort) as [->|[p0 ->]].
    + by apply elem_of_nil in Hv.
    + apply list_elem_of_singleton in Hv, Ha. subst. by eapply lex_lt_irrefl.
  - apply hull_of_elem; [done|lia].
Qed.

Lemma convex_hull_vertices points v :
  v ∈ convex_hull points ↔
  v ∈ points ∧ (lower_vertex points v ∨ upper_vertex points v).
Proof.
  unfold convex_hull. rewrite hull_of_vertices by apply distinct_NoDup.
  rewrite distinct_elem.
  rewrite (lower_vertex_ext _ points) by apply distinct_elem.
  rewrite (upper_vertex_ext _ points) by apply distinct_elem.
  reflexivity.
Qed.

Lemma convex_hull_NoDup points : NoDup (convex_hull points).
Proof.
  unfold convex_hull. pose proof (distinct_NoDup points) as Hnd.
  destruct (decide (length (of_key <$> elements (uniq points)) ≤ 1)%nat).
  - by rewrite hull_of_short.
  - apply hull_of_NoDup; [done|lia].
Qed.

(** ** The order of the listing does not matter *)

Lemma hull_of_perm pts pts' :
  pts ≡ₚ pts' → hull_of pts = hull_of pts'.
Proof.
  intros Hp. unfold hull_of. rewrite <- (Permutation_length Hp).
  case_bool_decide as Hlen.
  - destruct (short_list pts Hlen) as [->|[p ->]].
    + by apply Permutation_nil_l in Hp.
    + by apply Permutation_singleton_l in Hp.
  - cbn zeta. by rewrite (StronglySorted_unique point_le _ _
      (sort_points_sorted pts) (sort_points_sorted pts')
      ltac:(by rewrite !sort_points_perm)).
Qed.

(** ** The hull of a hull *)

Lemma convex_hull_any_listing points (e : list (Z * Z)) :
  NoDup e → (∀ k, k ∈ e ↔ k ∈ uniq points) →
  hull_of (of_key <$> e) = convex_hull points.
Proof.
  intros Hnd He. apply hull_of_perm, fmap_Permutation.
  apply NoDup_Permutation; [done|apply NoDup_elements|].
  intros k. by rewrite He, elem_of_elements.
Qed.

Lemma sorted_same_elements (R : relation Point) l1 l2 :
  (∀ p, ¬ R p p) → (∀ p q, R p q → R q p → False) →
  StronglySorted R l1 → StronglySorted R l2 →
  (∀ v, v ∈ l1 ↔ v ∈ l2) → l1 = l2.
Proof.
  intros Hirr Hasym H1 H2 Hel.
  apply (StronglySorted_unique_strong R); try done.
  - intros p q _ _ Hpq Hqp. destruct (Hasym p q Hpq Hqp).
  - apply NoDup_Permutation; eauto using StronglySorted_NoDup.
Qed.

Lemma lower_chain_determined S1 S2 :
  StronglySorted lex_lt S1 → StronglySorted lex_lt S2 →
  (∀ v, v ∈ S1 ∧ lower_vertex S1 v ↔ v ∈ S2 ∧ lower_vertex S2 v) →
  sweep S1 = sweep S2.
Proof.
  intros H1 H2 Hel.
  apply (sorted_same_elements lex_lt); auto using lex_lt_irrefl, lower_sorted.
  - intros p q Hpq Hqp. eapply lex_lt_irrefl, lex_lt_trans; eassumption.
  - intros v. by rewrite !lower_elem.
Qed.

Lemma upper_chain_determined S1 S2 :
  StronglySorted lex_lt S1 → StronglySorted lex_lt S2 →
  (∀ v, v ∈ S1 ∧ upper_vertex S1 v ↔ v ∈ S2 ∧ upper_vertex S2 v) →
  sweep (reverse S1) = sweep (reverse S2).
Proof.
  intros H1 H2 Hel.
  apply (sorted_same_elements lex_gt); auto using lex_gt_irrefl, upper_sorted.
  - intros p q Hpq Hqp. eapply lex_gt_irrefl, lex_gt_trans; eassumption.
  - intros v. by rewrite !upper_elem.
Qed.

Lemma hull_of_fixed pts : NoDup pts → hull_of (hull_of pts) = hull_of pts.
Proof.
  intros Hnd. destruct (decide (length pts ≤ 1)%nat) as [Hshort|Hlong].
  { rewrite (hull_of_short pts) by done. by apply hull_of_short. }
  assert (Hlen : (2 ≤ length pts)%nat) by lia.
  destruct (hull_of_shape pts Hnd Hlen)
    as (m & M & lo & up & Hh & Hlo & Hup & Hm & HM & HmM & Hmin & Hmax).
  pose proof (hull_of_NoDup pts Hnd Hlen) as HndH.
  pose proof (λ v, hull_of_vertices pts v Hnd) as Hvert.
  set (H := hull_of pts) in *.
  assert (HlenH : (2 ≤ length H)%nat).
  { rewrite Hh, length_app. simpl. lia. }
  assert (HmH : m ∈ H) by (rewrite Hh; apply elem_of_app; left; by left).
  assert (HMH : M ∈ H) by (rewrite Hh; apply elem_of_app; right; by left).
  assert (Hsub : ∀ v, v ∈ H → v ∈ pts) by (intros v Hv; by apply Hvert in Hv as [? _]).
  pose proof (sort_points_strict _ Hnd) as Hs.
  pose proof (sort_points_strict _ HndH) as HsH.
  rewrite (hull_of_unfold H HlenH).
  rewrite (lower_chain_determined (sort_points H) (sort_points pts) HsH Hs).
  2:{ intros v. rewrite !sort_points_elem.
      rewrite (lower_vertex_ext (sort_points H) H) by apply sort_points_elem.
      rewrite (lower_vertex_ext (sort_points pts) pts) by apply sort_points_elem.
      split.
      - intros [Hv Hl]. split; [auto|].
        apply Hvert in Hv as [Hv [Hl'|Hu]]; [done|].
        intros a p Ha Hp Hav Hvp.
        destruct (Hmin v Hv) as [->|Hmv].
        { exfalso. destruct (Hmin a Ha) as [->|Hma]; [by eapply lex_lt_irrefl|].
          eapply lex_lt_irrefl, lex_lt_trans; eassumption. }
        destruct (Hmax v Hv) as [->|HvM].
        { exfalso. destruct (Hmax p Hp) as [->|HpM]; [by eapply lex_lt_irrefl|].
          eapply lex_lt_irrefl, lex_lt_trans; eassumption. }
        exfalso. specialize (Hl m M HmH HMH Hmv HvM).
        specialize (Hu m M Hm HM Hmv HvM). lia.
      - intros [Hv Hl]. split; [apply Hvert; split; [done|by left]|].
        intros a p Ha Hp. apply Hl; auto. }
  rewrite (upper_chain_determined (sort_points H) (sort_points pts) HsH Hs).
  2:{ intros v. rewrite !sort_points_elem.
      rewrite (upper_vertex_ext (sort_points H) H) by apply sort_points_elem.
      rewrite (upper_vertex_ext (sort_points pts) pts) by apply sort_points_elem.
      split.
      - intros [Hv Hu]. split; [auto|].
        apply Hvert in Hv as [Hv [Hl|Hu']]; [|done].
        intros a p Ha Hp Hav Hvp.
        destruct (Hmin v Hv) as [->|Hmv].
        { exfalso. destruct (Hmin a Ha) as [->|Hma]; [by eapply lex_lt_irrefl|].
          eapply lex_lt_irrefl, lex_lt_trans; eassumption. }
        destruct (Hmax v Hv) as [->|HvM].
        { exfalso. destruct (Hmax p Hp) as [->|HpM]; [by eapply lex_lt_irrefl|].
          eapply lex_lt_irrefl, lex_lt_trans; eassumption. }
        exfalso. specialize (Hu m M HmH HMH Hmv HvM).
        specialize (Hl m M Hm HM Hmv HvM). lia.
      - intros [Hv Hu]. split; [apply Hvert; split; [done|by right]|].
        intros a p Ha Hp. apply Hu; auto. }
  subst H. by rewrite <- hull_of_unfold.
Qed.

Lemma of_key_key_list (l : list Point) : of_key <$> (key <$> l) = l.
Proof.
  induction l as [|p l IH]; [reflexivity|].
  cbn [fmap list_fmap] in *. by rewrite of_key_key, IH.
Qed.

Lemma convex_hull_fixed points :
  convex_hull (convex_hull points) = convex_hull points.
Proof.
  rewrite <- (convex_hull_any_listing (convex_hull points)
                (key <$> convex_hull points)).
  - rewrite of_key_key_list. apply hull_of_fixed, distinct_NoDup.
  - apply NoDup_fmap_2; [apply _|apply convex_hull_NoDup].
  - intros k. unfold uniq. by rewrite elem_of_list_to_set.
Qed.

(** * The claims *)


(** C7. When the set of distinct input points has 0 or 1 elements,
    [convex_hull] returns that set as a sequence: the empty input gives
    the empty output, and an input that repeats one point gives that
    point once. *)
Theorem C7_trivial_cases points :
  (size (uniq points) ≤ 1)%nat →
  convex_hull points = of_key <$> elements (uniq points) ∧
  (points = [] → convex_hull points = []) ∧
  (∀ p, p ∈ points → convex_hull points = [p]).
Proof.
  intros Hsize.
  assert (Hlen : (length (of_key <$> elements (uniq points)) ≤ 1)%nat)
    by (by rewrite length_fmap).
  assert (Hret : convex_hull points = of_key <$> elements (uniq points))
    by (by apply hull_of_short).
  split; [done|]. split.
  - intros ->. reflexivity.
  - intros p Hp. rewrite Hret. apply distinct_elem in Hp.
    destruct (short_list _ Hlen) as [Heq|[p0 Heq]]; rewrite Heq in Hp |- *.
    + by apply elem_of_nil in Hp.
    + by apply list_elem_of_singleton in Hp as ->.
Qed.

Lemma C7_trivial_cases_witness :
  convex_hull [mkPoint 5 5; mkPoint 5 5; mkPoint 5 5] = [mkPoint 5 5].
Proof.
  apply (C7_trivial_cases [mkPoint 5 5; mkPoint 5 5; mkPoint 5 5]).
  - vm_compute. lia.
  - by left.
Defined.

(** C8, amended.  For input points with integer coordinates, running
    [convex_hull] on its own output returns a sequence with exactly the
    same set of coordinate pairs; it even returns the same sequence.
    (With float coordinates the second run can lose a point,
    [C8_float_counterexample].) *)
Theorem C8_idempotent points :
  (∀ k, k ∈ key <$> convex_hull (convex_hull points) ↔
        k ∈ key <$> convex_hull points) ∧
  convex_hull (convex_hull points) = convex_hull points.
Proof.
  split; [|apply convex_hull_fixed].
  intros k. rewrite !list_elem_of_fmap.
  split; intros (v & -> & Hv); exists v; (split; [done|]).
  - by apply convex_hull_vertices in Hv as [? _].
  - apply convex_hull_vertices. split; [done|].
    assert (Hsub : ∀ q, q ∈ convex_hull points → q ∈ points)
      by (intros q Hq; by apply convex_hull_vertices in Hq as [? _]).
    apply convex_hull_vertices in Hv as [_ [Hl|Hu]].
    + left. intros a p Ha Hp. apply Hl; auto.
    + right. intros a p Ha Hp. apply Hu; auto.
Qed.



(** ** Cyclic indexing *)

Lemma cyc_index (h : list Point) i :
  h ≠ [] → (Z.to_nat (i `mod` Z.of_nat (length h)) < length h)%nat.
Proof.
  intros Hne. assert (0 < Z.of_nat (length h)) by (destruct h; [done|simpl; lia]).
  pose proof (Z.mod_pos_bound i (Z.of_nat (length h))). lia.
Qed.

Lemma cyc_lookup h i :
  h ≠ [] → h !! Z.to_nat (i `mod` Z.of_nat (length h)) = Some (cyc h i).
Proof.
  intros Hne. unfold cyc. rewrite list_lookup_total_alt.
  destruct (lookup_lt_is_Some_2 h _ (cyc_index h i Hne)) as [p ->]. reflexivity.
Qed.

Lemma cyc_elem h i : h ≠ [] → cyc h i ∈ h.
Proof. intros Hne. eapply list_elem_of_lookup_2, cyc_lookup, Hne. Qed.

Lemma cyc_small h (i : nat) p : h !! i = Some p → cyc h (Z.of_nat i) = p.
Proof.
  intros Hi. unfold cyc. apply list_lookup_total_correct.
  apply lookup_lt_Some in Hi as Hlt.
  rewrite Z.mod_small by lia. by rewrite Nat2Z.id.
Qed.

Lemma cyc_succ_mod i n :
  0 < n →
  ((i + 1) `mod` n = i `mod` n + 1 ∧ i `mod` n + 1 < n) ∨
  ((i + 1) `mod` n = 0 ∧ i `mod` n + 1 = n).
Proof.
  intros Hn. pose proof (Z.mod_pos_bound i n Hn) as Hb.
  rewrite <- (Zplus_mod_idemp_l i 1 n).
  destruct (decide (i `mod` n + 1 < n)) as [Hlt|Hge].
  - left. rewrite Z.mod_small by lia. done.
  - right. replace (i `mod` n + 1) with n by lia. by rewrite Z_mod_same_full.
Qed.

(** Consecutive points of the cyclic sequence are adjacent on the closed
    walk [h ++ [h[0]]]. *)
Lemma cyc_adjacent h i :
  h ≠ [] → adjacent (cyc h i) (cyc h (i + 1)) (h ++ take 1 h).
Proof.
  intros Hne.
  assert (Hn : 0 < Z.of_nat (length h)) by (destruct h; [done|simpl; lia]).
  apply adjacent_lookup. exists (Z.to_nat (i `mod` Z.of_nat (length h))).
  pose proof (cyc_index h i Hne) as Hlt.
  split; [rewrite lookup_app_l by done; by apply cyc_lookup|].
  pose proof (cyc_lookup h (i + 1) Hne) as Hnext.
  pose proof (Z.mod_pos_bound i _ Hn) as Hpos.
  destruct (cyc_succ_mod i _ Hn) as [[Heq Hb]|[Heq Hb]]; rewrite Heq in Hnext.
  - rewrite lookup_app_l by lia. rewrite <- Hnext. f_equal. lia.
  - rewrite lookup_app_r by lia.
    replace (S (Z.to_nat (i `mod` Z.of_nat (length h))) - length h)%nat
      with 0%nat by lia.
    destruct h; [done|]. exact Hnext.
Qed.

Lemma cyc_inj h i j :
  NoDup h → h ≠ [] → cyc h i = cyc h j →
  i `mod` Z.of_nat (length h) = j `mod` Z.of_nat (length h).
Proof.
  intros Hnd Hne Heq.
  pose proof (cyc_lookup h i Hne) as Hi. pose proof (cyc_lookup h j Hne) as Hj.
  rewrite Heq in Hi.
  pose proof (NoDup_lookup _ _ _ _ Hnd Hi Hj) as Hidx.
  assert (Hn : 0 < Z.of_nat (length h)) by (destruct h; [done|simpl; lia]).
  pose proof (Z.mod_pos_bound i _ Hn). pose proof (Z.mod_pos_bound j _ Hn). lia.
Qed.

Lemma mod_shift_ne i d n :
  0 < d < n → (i + d) `mod` n ≠ i `mod` n.
Proof.
  intros Hd Heq. assert (Hn : n ≠ 0) by lia.
  pose proof (Z.div_mod (i + d) n Hn). pose proof (Z.div_mod i n Hn).
  pose proof (Z.mod_pos_bound i n ltac:(lia)).
  assert (d = n * ((i + d) / n - i / n)) as Hdiv by lia.
  destruct (decide ((i + d) / n - i / n ≤ 0)); nia.
Qed.

Lemma long_nonempty (h : list Point) : (1 ≤ length h)%nat → h ≠ [].
Proof. intros Hlen ->. simpl in Hlen. lia. Qed.

Lemma cyc_next_ne h i :
  NoDup h → (2 ≤ length h)%nat → cyc h i ≠ cyc h (i + 1).
Proof.
  intros Hnd Hlen Heq.
  apply cyc_inj in Heq; [|done|apply long_nonempty; lia].
  symmetry in Heq. revert Heq. apply mod_shift_ne. lia.
Qed.

Lemma cyc_skip_ne h i :
  NoDup h → (3 ≤ length h)%nat → cyc h (i - 1) ≠ cyc h (i + 1).
Proof.
  intros Hnd Hlen Heq.
  apply cyc_inj in Heq; [|done|apply long_nonempty; lia].
  symmetry in Heq. revert Heq.
  replace (i + 1) with (i - 1 + 2) by lia. apply mod_shift_ne. lia.
Qed.

(** ** Vertices and edges of the returned polygon *)

Lemma direction_flip a b c : direction b a c = - direction a b c.
Proof. unfold direction. ring. Qed.

Lemma direction_degenerate p q : direction p p q = 0.
Proof. unfold direction. ring. Qed.

Lemma extreme_not_between pts a z p :
  extreme pts z → a ∈ pts → p ∈ pts → lex_lt a z → lex_lt z p →
  direction a z p ≠ 0.
Proof.
  intros [Hl|Hu] Ha Hp Haz Hzp.
  - specialize (Hl a p Ha Hp Haz Hzp). lia.
  - specialize (Hu a p Ha Hp Haz Hzp). lia.
Qed.

(** Three distinct vertices are never on one line. *)
Lemma vertices_not_collinear pts u v w :
  u ∈ pts → v ∈ pts → w ∈ pts →
  extreme pts u → extreme pts v → extreme pts w →
  u ≠ v → v ≠ w → u ≠ w → direction u v w ≠ 0.
Proof.
  intros Hu Hv Hw Eu Ev Ew Huv Hvw Huw H0.
  pose proof (direction_swap u v w) as Hs.
  pose proof (direction_rotate u v w) as Hr.
  pose proof (direction_rotate v w u) as Hr'.
  pose proof (direction_flip u v w) as Hf.
  pose proof (direction_flip u w v) as Hf'.
  pose proof (direction_swap u w v) as Hs'.
  destruct (lex_lt_total u v) as [Luv|[?|Lvu]]; [|done|];
  destruct (lex_lt_total v w) as [Lvw|[?|Lwv]]; try done;
  destruct (lex_lt_total u w) as [Luw|[?|Lwu]]; try done.
  - by apply (extreme_not_between pts u v w).
  - by apply (extreme_not_between pts u v w).
  - apply (extreme_not_between pts u w v); try done. lia.
  - apply (extreme_not_between pts w u v); try done. lia.
  - apply (extreme_not_between pts v u w); try done. lia.
  - apply (extreme_not_between pts v w u); try done. lia.
  - apply (extreme_not_between pts w v u); try done. lia.
  - apply (extreme_not_between pts w v u); try done. lia.
Qed.

Lemma between_on_segment u v q :
  lex_lt u q → lex_lt q v → direction u v q = 0 →
  on_segment u v q ∧ on_segment v u q.
Proof.
  intros Huq Hqv H0. pose proof (direction_flip u v q) as Hf.
  unfold on_segment. rewrite Hf, H0. clear Hf. coords.
  repeat split; try lia; nia.
Qed.

Lemma endpoint_on_segment u v :
  on_segment u v u ∧ on_segment u v v.
Proof.
  unfold on_segment. rewrite direction_same_l, direction_same_r. lia.
Qed.

(** An input point on the line of an edge is on the edge. *)
Lemma vertex_edge_segment pts u v q :
  u ∈ pts → v ∈ pts → q ∈ pts → extreme pts u → extreme pts v →
  u ≠ v → direction u v q = 0 → on_segment u v q.
Proof.
  intros Hu Hv Hq Eu Ev Huv H0.
  destruct (decide (q = u)) as [->|Hqu]; [apply endpoint_on_segment|].
  destruct (decide (q = v)) as [->|Hqv]; [apply endpoint_on_segment|].
  pose proof (direction_swap u v q) as Hs.
  pose proof (direction_rotate u v q) as Hr.
  pose proof (direction_rotate v q u) as Hr'.
  pose proof (direction_flip u v q) as Hf.
  pose proof (direction_flip u q v) as Hf'.
  pose proof (direction_swap u q v) as Hs'.
  destruct (lex_lt_total u q) as [Luq|[?|Lqu]]; [|done|];
  destruct (lex_lt_total q v) as [Lqv|[?|Lvq]]; try done.
  - by destruct (between_on_segment u v q Luq Lqv H0) as [? _].
  - exfalso. destruct (lex_lt_total u v) as [Luv|[?|Lvu]]; [|done|].
    + apply (extreme_not_between pts u v q); try done.
    + apply (extreme_not_between pts v u q); try done. lia.
  - exfalso. destruct (lex_lt_total u v) as [Luv|[?|Lvu]]; [|done|].
    + apply (extreme_not_between pts q u v); try done. lia.
    + apply (extreme_not_between pts q v u); try done. lia.
  - assert (H0' : direction v u q = 0) by lia.
    by destruct (between_on_segment v u q Lvq Lqu H0') as [_ ?].
Qed.

Lemma on_line_direction α β γ a b c :
  α ≠ 0 ∨ β ≠ 0 → on_line α β γ a → on_line α β γ b → on_line α β γ c →
  direction a b c = 0.
Proof.
  unfold on_line. intros Hne Ha Hb Hc.
  assert (E1 : α * (x b - x a) = - β * (y b - y a)) by lia.
  assert (E2 : α * (x c - x a) = - β * (y c - y a)) by lia.
  assert (E3 : β * (y b - y a) = - α * (x b - x a)) by lia.
  assert (E4 : β * (y c - y a) = - α * (x c - x a)) by lia.
  assert (Hα : α * direction a b c = 0).
  { unfold direction.
    replace (α * ((x b - x a) * (y c - y a) - (y b - y a) * (x c - x a)))
      with (α * (x b - x a) * (y c - y a) - (y b - y a) * (α * (x c - x a)))
      by ring.
    rewrite E1, E2. ring. }
  assert (Hβ : β * direction a b c = 0).
  { unfold direction.
    replace (β * ((x b - x a) * (y c - y a) - (y b - y a) * (x c - x a)))
      with ((x b - x a) * (β * (y c - y a)) - β * (y b - y a) * (x c - x a))
      by ring.
    rewrite E3, E4. ring. }
  destruct Hne; nia.
Qed.

Lemma direction_zero_collinear a b c :
  direction a b c = 0 ↔ collinear a b c.
Proof.
  split.
  - intros H0. unfold collinear, on_line.
    destruct (decide (a = b)) as [->|Hab].
    + destruct (decide (b = c)) as [->|Hbc].
      * exists 1, 0, (x c). lia.
      * exists (y b - y c), (x c - x b), ((y b - y c) * x b + (x c - x b) * y b).
        split; [|lia].
        destruct (decide (y b = y c)) as [Hy|]; [|lia].
        destruct (decide (x c = x b)) as [Hx|]; [|lia].
        exfalso. apply Hbc. destruct b, c. simpl in *. congruence.
    + exists (y a - y b), (x b - x a), ((y a - y b) * x a + (x b - x a) * y a).
      split; [|unfold direction in H0; lia].
      destruct (decide (y a = y b)) as [Hy|]; [|lia].
      destruct (decide (x b = x a)) as [Hx|]; [|lia].
      exfalso. apply Hab. destruct a, b. simpl in *. congruence.
  - intros (α & β & γ & Hne & Ha & Hb & Hc). by eapply on_line_direction.
Qed.

Lemma convex_hull_edge points u v q :
  adjacent u v (convex_hull points ++ take 1 (convex_hull points)) →
  q ∈ points → 0 ≤ direction u v q.
Proof.
  unfold convex_hull. intros Hadj Hq. apply distinct_elem in Hq.
  pose proof (distinct_NoDup points) as Hnd.
  destruct (decide (length (of_key <$> elements (uniq points)) ≤ 1)%nat) as [Hs|Hl].
  - rewrite hull_of_short in Hadj by done.
    destruct (short_list _ Hs) as [Heq|[p Heq]]; rewrite Heq in Hadj.
    + inversion Hadj.
    + apply adjacent_elem in Hadj as [Hu Hv]. simpl in Hu, Hv.
      rewrite !elem_of_cons, elem_of_nil in Hu, Hv.
      assert (u = p) as -> by tauto. assert (v = p) as -> by tauto.
      rewrite direction_degenerate. lia.
  - eapply hull_of_edge; [exact Hnd|lia|exact Hadj|exact Hq].
Qed.

Lemma convex_hull_extreme points v :
  v ∈ convex_hull points → v ∈ points ∧ extreme points v.
Proof. apply convex_hull_vertices. Qed.

(** The turn at every vertex of a hull of three points or more is a
    strict left turn. *)
Lemma convex_hull_turn points i :
  (3 ≤ length (convex_hull points))%nat →
  0 < direction (cyc (convex_hull points) (i - 1))
                (cyc (convex_hull points) i)
                (cyc (convex_hull points) (i + 1)).
Proof.
  intros Hlen. set (h := convex_hull points) in *.
  assert (Hne : h ≠ []) by (apply long_nonempty; lia).
  pose proof (convex_hull_NoDup points) as Hnd. fold h in Hnd.
  destruct (convex_hull_extreme points _ (cyc_elem h (i - 1) Hne)) as [Hu Eu].
  destruct (convex_hull_extreme points _ (cyc_elem h i Hne)) as [Hv Ev].
  destruct (convex_hull_extreme points _ (cyc_elem h (i + 1) Hne)) as [Hw Ew].
  pose proof (cyc_adjacent h (i - 1) Hne) as Hadj.
  pose proof (cyc_next_ne h (i - 1) Hnd ltac:(lia)) as Huv.
  replace (i - 1 + 1) with i in Hadj, Huv by lia.
  pose proof (cyc_next_ne h i Hnd ltac:(lia)) as Hvw.
  pose proof (cyc_skip_ne h i Hnd Hlen) as Huw.
  pose proof (convex_hull_edge points _ _ _ Hadj Hw) as Hge.
  pose proof (vertices_not_collinear points _ _ _ Hu Hv Hw Eu Ev Ew Huv Hvw Huw).
  lia.
Qed.

(** C1, amended.  For input points with integer coordinates: when the
    returned hull has at least 3 points, every cyclically consecutive
    triple [(p[i-1], p[i], p[i+1])] of it (indices modulo the length) is a
    strict left turn, [direction > 0]; so no three consecutive points of
    the output are collinear.  (With float coordinates a collinear triple
    can be returned, [C1_float_counterexample].) *)
Theorem C1_strict_left_turns points i :
  (3 ≤ length (convex_hull points))%nat →
  direction (cyc (convex_hull points) (i - 1))
            (cyc (convex_hull points) i)
            (cyc (convex_hull points) (i + 1)) > 0
  ∧ ¬ collinear (cyc (convex_hull points) (i - 1))
                (cyc (convex_hull points) i)
                (cyc (convex_hull points) (i + 1)).
Proof.
  intros Hlen. pose proof (convex_hull_turn points i Hlen) as Hturn.
  split; [lia|]. rewrite <- direction_zero_collinear. lia.
Qed.

Lemma C1_strict_left_turns_witness :
  let h := convex_hull [mkPoint 0 0; mkPoint 2 0; mkPoint 1 1; mkPoint 2 2;
                        mkPoint 0 2; mkPoint 1 0] in
  direction (cyc h (-1)) (cyc h 0) (cyc h 1) > 0
  ∧ ¬ collinear (cyc h (-1)) (cyc h 0) (cyc h 1).
Proof.
  apply (C1_strict_left_turns
           [mkPoint 0 0; mkPoint 2 0; mkPoint 1 1; mkPoint 2 2;
            mkPoint 0 2; mkPoint 1 0] 0).
  vm_compute. lia.
Defined.

Lemma two_members_long (l : list Point) a b :
  a ∈ l → b ∈ l → a ≠ b → (2 ≤ length l)%nat.
Proof.
  destruct l as [|p [|q l]]; simpl; intros Ha Hb Hne; [| |lia].
  - by apply elem_of_nil in Ha.
  - apply list_elem_of_singleton in Ha, Hb. congruence.
Qed.

Lemma convex_hull_shape points a b :
  a ∈ points → b ∈ points → a ≠ b →
  let pts := sort_points (of_key <$> elements (uniq points)) in
  ∃ m M lo up,
    convex_hull points = (m :: lo) ++ (M :: up) ∧
    sweep pts = m :: lo ++ [M] ∧
    sweep (reverse pts) = M :: up ++ [m] ∧
    m ∈ points ∧ M ∈ points ∧ lex_lt m M ∧
    (∀ q, q ∈ points → q = m ∨ lex_lt m q) ∧
    (∀ q, q ∈ points → q = M ∨ lex_lt q M).
Proof.
  intros Ha Hb Hne pts. apply distinct_elem in Ha, Hb.
  pose proof (two_members_long _ a b Ha Hb Hne) as Hlen.
  destruct (hull_of_shape _ (distinct_NoDup points) Hlen)
    as (m & M & lo & up & Hh & Hlo & Hup & Hm & HM & HmM & Hmin & Hmax).
  exists m, M, lo, up. rewrite distinct_elem in Hm, HM.
  repeat split; try done; intros q Hq; [apply Hmin | apply Hmax];
    by apply distinct_elem.
Qed.

(** Every input point is strictly to the left of each edge of the
    returned cycle, or on that edge. *)
Lemma convex_hull_contains points q :
  q ∈ points → in_closed_polygon (convex_hull points) q.
Proof.
  intros Hq. set (h := convex_hull points).
  pose proof (convex_hull_NoDup points) as Hnd. fold h in Hnd.
  assert (Hcases : h = [q] ∨ (2 ≤ length h)%nat).
  { subst h. unfold convex_hull in *.
    pose proof (proj2 (distinct_elem points q) Hq) as Hq'.
    destruct (decide (length (of_key <$> elements (uniq points)) ≤ 1)%nat) as [Hs|Hl].
    - left. rewrite hull_of_short by done.
      destruct (short_list _ Hs) as [Heq|[p Heq]]; rewrite Heq in Hq' |- *.
      + by apply elem_of_nil in Hq'.
      + by apply list_elem_of_singleton in Hq' as ->.
    - right.
      destruct (hull_of_shape _ (distinct_NoDup points) ltac:(lia))
        as (m & M & lo & up & -> & _).
      rewrite length_app. simpl. lia. }
  destruct Hcases as [Hone|Hlen].
  - rewrite Hone. split; [done|]. intros i Hi. right.
    assert (∀ j, cyc [q] j = q) as Hc.
    { intros j. unfold cyc. simpl. by rewrite Z.mod_1_r. }
    rewrite !Hc. apply endpoint_on_segment.
  - assert (Hne : h ≠ []) by (apply long_nonempty; lia).
    split; [done|]. intros i _.
    pose proof (convex_hull_edge points _ _ q (cyc_adjacent h i Hne) Hq) as Hge.
    destruct (decide (direction (cyc h i) (cyc h (i + 1)) q = 0)) as [H0|]; [|lia].
    right.
    destruct (convex_hull_extreme points _ (cyc_elem h i Hne)) as [Hu Eu].
    destruct (convex_hull_extreme points _ (cyc_elem h (i + 1) Hne)) as [Hv Ev].
    apply (vertex_edge_segment points); try done.
    by apply cyc_next_ne.
Qed.

(** *** Every input point is a weighted mean of three returned points *)

Lemma segment_combination u v q :
  u ≠ v → on_segment u v q → convex_combination3 u v v q.
Proof.
  intros Hne (H0 & Hx & Hy). unfold convex_combination3.
  assert (Hc : x u ≠ x v ∨ y u ≠ y v).
  { destruct (decide (x u = x v)) as [Hxe|]; [|auto].
    destruct (decide (y u = y v)) as [Hye|]; [|auto].
    exfalso. apply Hne. destruct u, v. simpl in *. congruence. }
  unfold direction in H0.
  destruct (Z.lt_trichotomy (x u) (x v)) as [Hlt|[Heq|Hgt]].
  - exists (x v - x q), (x q - x u), 0. repeat split; lia.
  - destruct (Z.lt_trichotomy (y u) (y v)) as [Hlt|[Heq'|Hgt]]; [|lia|].
    + exists (y v - y q), (y q - y u), 0. repeat split; try lia; nia.
    + exists (y q - y v), (y u - y q), 0. repeat split; try lia; nia.
  - exists (x q - x v), (x u - x q), 0. repeat split; lia.
Qed.

(** A sequence of integers that starts [≥ 0] and ends [≤ 0] changes sign
    between two consecutive indices. *)
Lemma sign_change (f : Z → Z) (n : nat) lo :
  0 ≤ f lo → f (lo + Z.of_nat (S n)) ≤ 0 →
  ∃ i, lo ≤ i < lo + Z.of_nat (S n) ∧ 0 ≤ f i ∧ f (i + 1) ≤ 0.
Proof.
  revert lo. induction n as [|n IH]; intros lo Hlo Hhi.
  - exists lo. split; [lia|]. split; [done|].
    by replace (lo + 1) with (lo + Z.of_nat 1) by lia.
  - destruct (decide (f (lo + 1) ≤ 0)) as [Hneg|Hpos].
    + exists lo. split; [lia|]. done.
    + destruct (IH (lo + 1)) as (i & Hi & ? & ?); [lia| |].
      * by replace (lo + 1 + Z.of_nat (S n)) with (lo + Z.of_nat (S (S n))) by lia.
      * exists i. split; [lia|done].
Qed.

Lemma triangle_weights u v w q :
  direction v w q + direction w u q + direction u v q = direction u v w ∧
  direction u v w * x q
  = direction v w q * x u + direction w u q * x v + direction u v q * x w ∧
  direction u v w * y q
  = direction v w q * y u + direction w u q * y v + direction u v q * y w.
Proof. unfold direction. repeat split; ring. Qed.

Lemma cyc_small_ne h i :
  NoDup h → 0 < i < Z.of_nat (length h) → cyc h 0 ≠ cyc h i.
Proof.
  intros Hnd Hi Heq.
  apply cyc_inj in Heq; [|done|apply long_nonempty; lia].
  rewrite !Z.mod_small in Heq by lia. lia.
Qed.

Lemma convex_hull_combination points q :
  q ∈ points →
  ∃ u v w,
    u ∈ convex_hull points ∧ v ∈ convex_hull points ∧ w ∈ convex_hull points ∧
    convex_combination3 u v w q.
Proof.
  intros Hq. destruct (convex_hull_contains points q Hq) as [Hne Hin].
  pose proof (convex_hull_NoDup points) as Hnd.
  set (h := convex_hull points) in *.
  destruct (decide (length h ≤ 2)%nat) as [Hshort|Hlong].
  - (* a point or a segment *)
    pose proof (cyc_elem h 0 Hne) as H0. pose proof (cyc_elem h 1 Hne) as H1.
    assert (Hseg : on_segment (cyc h 0) (cyc h 1) q).
    { assert (Hlen : (1 ≤ length h)%nat) by (destruct h; [done|simpl; lia]).
      pose proof (Hin 0 ltac:(lia)) as Hin0. change (0 + 1) with 1 in Hin0.
      destruct Hin0 as [Hpos|Hseg]; [|exact Hseg].
      destruct (decide (length h = 1)%nat) as [Hone|Htwo].
      - exfalso. destruct h as [|p [|? ?]]; simplify_eq/=.
        unfold cyc in Hpos. simpl in Hpos. rewrite direction_degenerate in Hpos. lia.
      - destruct (Hin 1 ltac:(lia)) as [Hpos'|(Hd & Hx & Hy)].
        + exfalso. replace (cyc h (1 + 1)) with (cyc h 0) in Hpos'.
          * rewrite direction_flip in Hpos'. lia.
          * unfold cyc. replace (Z.of_nat (length h)) with 2 by lia. reflexivity.
        + replace (cyc h (1 + 1)) with (cyc h 0) in *.
          * split; [rewrite direction_flip in Hd; lia|]. lia.
          * unfold cyc. replace (Z.of_nat (length h)) with 2 by lia. reflexivity. }
    destruct (decide (cyc h 0 = cyc h 1)) as [Heq|Hdiff].
    + exists (cyc h 0), (cyc h 0), (cyc h 0). repeat split; try done.
      rewrite <- Heq in Hseg. destruct Hseg as (_ & Hx & Hy).
      exists 1, 0, 0. lia.
    + exists (cyc h 0), (cyc h 1), (cyc h 1). repeat split; try done.
      by apply segment_combination.
  - (* a polygon: some triangle of the fan from the first vertex holds [q] *)
    assert (Hlen : (3 ≤ length h)%nat) by lia.
    set (f := λ i, direction (cyc h 0) (cyc h i) q).
    assert (Hfirst : 0 ≤ f 1).
    { pose proof (Hin 0 ltac:(lia)) as Hin0. change (0 + 1) with 1 in Hin0.
      destruct Hin0 as [?|(Hd & _)]; unfold f; lia. }
    assert (Hlast : f (1 + Z.of_nat (S (length h - 3))) ≤ 0).
    { replace (1 + Z.of_nat (S (length h - 3))) with (Z.of_nat (length h) - 1) by lia.
      unfold f.
      pose proof (convex_hull_edge points _ _ q
                    (cyc_adjacent h (Z.of_nat (length h) - 1) Hne) Hq) as Hedge.
      replace (cyc h (Z.of_nat (length h) - 1 + 1)) with (cyc h 0) in Hedge.
      - rewrite (direction_flip (cyc h (Z.of_nat (length h) - 1)) (cyc h 0) q). lia.
      - unfold cyc. f_equal. f_equal.
        replace (Z.of_nat (length h) - 1 + 1) with (Z.of_nat (length h)) by lia.
        rewrite Z_mod_same_full, Z.mod_0_l; lia. }
    destruct (sign_change f _ 1 Hfirst Hlast) as (i & Hi & Hfi & Hfi').
    set (u := cyc h 0). set (v := cyc h i). set (w := cyc h (i + 1)).
    assert (Hu : u ∈ h) by apply (cyc_elem h 0 Hne).
    assert (Hv : v ∈ h) by apply (cyc_elem h i Hne).
    assert (Hw : w ∈ h) by apply (cyc_elem h (i + 1) Hne).
    exists u, v, w. do 3 (split; [done|]).
    destruct (convex_hull_extreme points u Hu) as [Hup Eu].
    destruct (convex_hull_extreme points v Hv) as [Hvp Ev].
    destruct (convex_hull_extreme points w Hw) as [Hwp Ew].
    pose proof (convex_hull_edge points v w q (cyc_adjacent h i Hne) Hq) as Ha.
    pose proof (convex_hull_edge points v w u (cyc_adjacent h i Hne) Hup) as Hsum.
    assert (Huv : u ≠ v) by (apply cyc_small_ne; [done|lia]).
    assert (Huw : u ≠ w) by (apply cyc_small_ne; [done|lia]).
    assert (Hvw : v ≠ w) by (apply cyc_next_ne; [done|lia]).
    pose proof (vertices_not_collinear points u v w Hup Hvp Hwp Eu Ev Ew Huv Hvw Huw) as Hnz.
    rewrite direction_rotate in Hsum.
    destruct (triangle_weights u v w q) as (Hs & Hx & Hy).
    assert (Hb : 0 ≤ direction w u q).
    { unfold f in Hfi'. fold u w in Hfi'.
      rewrite (direction_flip u w q). lia. }
    exists (direction v w q), (direction w u q), (direction u v q).
    rewrite Hs. unfold f in Hfi. fold u v in Hfi.
    repeat split; try lia.
Qed.

(** C2, amended.  For input points with integer coordinates, every
    input point lies on or inside the polygon formed by the returned
    sequence: it is strictly to the left of each edge of the cycle or on
    that edge, and it is a weighted mean of three returned points.  (With
    float coordinates an input point can be left outside,
    [C2_float_counterexample].) *)
Theorem C2_containment points q :
  q ∈ points →
  in_closed_polygon (convex_hull points) q ∧
  ∃ u v w,
    u ∈ convex_hull points ∧ v ∈ convex_hull points ∧ w ∈ convex_hull points ∧
    convex_combination3 u v w q.
Proof.
  intros Hq. split.
  - by apply convex_hull_contains.
  - by apply convex_hull_combination.
Qed.

Lemma C2_containment_witness :
  in_closed_polygon
    (convex_hull [mkPoint 0 0; mkPoint 2 0; mkPoint 1 1; mkPoint 2 2; mkPoint 0 2])
    (mkPoint 1 1).
Proof.
  refine (proj1 (C2_containment
           [mkPoint 0 0; mkPoint 2 0; mkPoint 1 1; mkPoint 2 2; mkPoint 0 2]
           (mkPoint 1 1) _)).
  do 2 right. left.
Defined.






(** ** Orientation: the shoelace area *)









(** ** The turn test *)

(** C4, amended.  For points with integer coordinates,
    [direction(a, b, c)] is
    [(b.x − a.x)·(c.y − a.y) − (b.y − a.y)·(c.x − a.x)]; it is positive
    exactly when [a → b → c] turns left (counter-clockwise), negative
    exactly when it turns right (clockwise), and zero exactly when the
    three points are on one line.  (With float coordinates the rounded
    value can be positive for points on one line,
    [C4_float_counterexample].) *)
Theorem C4_direction_sign a b c :
  direction a b c = (x b - x a) * (y c - y a) - (y b - y a) * (x c - x a) ∧
  (direction a b c > 0 ↔ left_turn a b c) ∧
  (direction a b c < 0 ↔ right_turn a b c) ∧
  (direction a b c = 0 ↔ collinear a b c) ∧
  direction (mkPoint 0 0) (mkPoint 1 0) (mkPoint 0 1) = 1 ∧
  direction a c b = - direction a b c.
Proof.
  split; [reflexivity|].
  assert (Halong : along (left_normal a b) a c = direction a b c)
    by (unfold along, left_normal, direction; simpl; ring).
  unfold left_turn, right_turn. rewrite Halong.
  split; [lia|]. split; [lia|]. split; [apply direction_zero_collinear|].
  split; [reflexivity|]. unfold direction. ring.
Qed.

(** ** Equality and order of points *)

Lemma C9_point_equality_counterexample :
  ¬ (∀ p q : PointObject,
       obj_eq p q = true ↔
       x (attrs p) = x (attrs q) ∧ y (attrs p) = y (attrs q)).
Proof.
  intros H.
  specialize (H (mkObject 1 (mkPoint 0 0)) (mkObject 2 (mkPoint 0 0))).
  destruct H as [_ H]. discriminate (H (conj eq_refl eq_refl)).
Qed.

(** C9, amended.  [convex_hull] compares points by the pair [(p.x, p.y)]:
    two points have the same pair exactly when [p.x = q.x] and
    [p.y = q.y], and the sort arranges the points by [(x, y)] ascending,
    [x] first and [y] to break ties.  The class itself compares objects by
    identity only, whatever their coordinates, and has no order. *)
Theorem C9_keys_equal_and_ordered :
  (∀ p q, key p = key q ↔ x p = x q ∧ y p = y q) ∧
  (∀ p q, point_le p q ↔ x p < x q ∨ (x p = x q ∧ y p ≤ y q)) ∧
  (∀ pts, StronglySorted point_le (sort_points pts) ∧ sort_points pts ≡ₚ pts) ∧
  (∀ p q, obj_eq p q = true ↔ ident p = ident q) ∧
  (∀ p q, obj_lt p q = None).
Proof.
  split; [|split; [|split; [|split]]].
  - intros p q. unfold key. split; [intros [= -> ->]; done|intros [-> ->]; done].
  - intros p q. reflexivity.
  - intros pts. split; [apply sort_points_sorted | apply sort_points_perm].
  - intros p q. unfold obj_eq. apply bool_decide_eq_true.
  - reflexivity.
Qed.


(** * Floating-point coordinates

    On floats the source computes [direction] with rounding, and the
    rounded sign can differ from the true one.  Each lemma below evaluates
    the float model at an input of a few ordinary decimal coordinates and
    compares the result with the exact positions of the points. *)

Example float_demo :
  F.convex_hull
    [F.mkPoint 0 0; F.mkPoint 2 0; F.mkPoint 2 2; F.mkPoint 0 2;
     F.mkPoint 1 1; F.mkPoint 1 2; F.mkPoint 0 1; F.mkPoint 2 1;
     F.mkPoint 2 2; F.mkPoint 0 0]
  = [F.mkPoint 0 0; F.mkPoint 2 0; F.mkPoint 2 2; F.mkPoint 0 2].
Proof. vm_compute. reflexivity. Qed.

(** The doubles nearest to [(0.1, 0.1)], [(0.3, 0.2)] and [(0.7, 0.4)] lie
    exactly on one line, but the rounded [direction] of them is positive
    in the order of the sweep. *)
Lemma C4_float_counterexample :
  PrimFloat.ltb 0
    (F.direction (F.mkPoint 0.1 0.1) (F.mkPoint 0.3 0.2) (F.mkPoint 0.7 0.4))
  = true ∧
  collinear (exact_point (F.mkPoint 0.1 0.1)) (exact_point (F.mkPoint 0.3 0.2))
            (exact_point (F.mkPoint 0.7 0.4)) ∧
  ¬ left_turn (exact_point (F.mkPoint 0.1 0.1)) (exact_point (F.mkPoint 0.3 0.2))
              (exact_point (F.mkPoint 0.7 0.4)).
Proof.
  split; [vm_compute; reflexivity|]. split.
  - apply direction_zero_collinear. vm_compute. reflexivity.
  - intros H. vm_compute in H. discriminate H.
Qed.

(** For these three points the source returns four points, the middle
    one twice; the triple [(p[1], p[2], p[3])] of the result starts and
    ends at that point and is no strict left turn. *)
Lemma C1_float_counterexample :
  (3 ≤ length (F.convex_hull
                 [F.mkPoint 0.1 0.1; F.mkPoint 0.3 0.2; F.mkPoint 0.7 0.4]))%nat ∧
  PrimFloat.ltb 0
    (F.direction
       (F.convex_hull [F.mkPoint 0.1 0.1; F.mkPoint 0.3 0.2; F.mkPoint 0.7 0.4] !!! 1%nat)
       (F.convex_hull [F.mkPoint 0.1 0.1; F.mkPoint 0.3 0.2; F.mkPoint 0.7 0.4] !!! 2%nat)
       (F.convex_hull [F.mkPoint 0.1 0.1; F.mkPoint 0.3 0.2; F.mkPoint 0.7 0.4] !!! 3%nat))
  = false ∧
  collinear
    (exact_point
       (F.convex_hull [F.mkPoint 0.1 0.1; F.mkPoint 0.3 0.2; F.mkPoint 0.7 0.4] !!! 0%nat))
    (exact_point
       (F.convex_hull [F.mkPoint 0.1 0.1; F.mkPoint 0.3 0.2; F.mkPoint 0.7 0.4] !!! 1%nat))
    (exact_point
       (F.convex_hull [F.mkPoint 0.1 0.1; F.mkPoint 0.3 0.2; F.mkPoint 0.7 0.4] !!! 2%nat)).
Proof.
  split; [vm_compute; lia|]. split; [vm_compute; reflexivity|].
  apply direction_zero_collinear. vm_compute. reflexivity.
Qed.



(** Three points that are not on one line, for which the source returns
    the segment between the first and the last: the point in the middle
    is an input point off that segment. *)
Lemma C2_float_counterexample :
  F.convex_hull [F.mkPoint 0 0.1; F.mkPoint 0.1 0.2; F.mkPoint 0.9 1.0]
  = [F.mkPoint 0 0.1; F.mkPoint 0.9 1.0] ∧
  ¬ in_closed_polygon
      (exact_point <$>
         F.convex_hull [F.mkPoint 0 0.1; F.mkPoint 0.1 0.2; F.mkPoint 0.9 1.0])
      (exact_point (F.mkPoint 0.1 0.2)).
Proof.
  split; [vm_compute; reflexivity|].
  intros [_ Hin].
  assert (Hlen : length (exact_point <$>
                   F.convex_hull
                     [F.mkPoint 0 0.1; F.mkPoint 0.1 0.2; F.mkPoint 0.9 1.0])
                 = 2%nat) by (vm_compute; reflexivity).
  pose proof (Hin 0 ltac:(rewrite Hlen; lia)) as H0.
  pose proof (Hin 1 ltac:(rewrite Hlen; lia)) as H1.
  vm_compute in H0, H1.
  destruct H0 as [H0|[H0 _]]; try discriminate H0.
  destruct H1 as [H1|[H1 _]]; discriminate H1.
Qed.


(** Five points of which the source returns four, among them [(1, 0.4)];
    run on these four it returns [(0.5, 0.25)] twice and [(1, 0.4)] no
    more. *)
Lemma C8_float_counterexample :
  existsb (F.key_eqb (F.mkPoint 1.0 0.4))
    (F.convex_hull
       [F.mkPoint 0.2 0.16; F.mkPoint 0.5 0.25;
        F.mkPoint 0.6000000000000001 0.28000000000000003;
        F.mkPoint 1.0 0.4; F.mkPoint 3.7 1.2100000000000002])
  = true ∧
  existsb (F.key_eqb (F.mkPoint 1.0 0.4))
    (F.convex_hull
       (F.convex_hull
          [F.mkPoint 0.2 0.16; F.mkPoint 0.5 0.25;
           F.mkPoint 0.6000000000000001 0.28000000000000003;
           F.mkPoint 1.0 0.4; F.mkPoint 3.7 1.2100000000000002]))
  = false.
Proof. split; vm_compute; reflexivity. Qed.

(** Rounding also breaks the symmetries of [direction] and the way the
    result follows a translation of the input: the properties of the next
    part that rest on exact arithmetic are stated for integer coordinates. *)
Example float_direction_rotated :
  F.direction (F.mkPoint 0.3 0.2) (F.mkPoint 0.7 0.4) (F.mkPoint 0.1 0.1)
  ≠ F.direction (F.mkPoint 0.1 0.1) (F.mkPoint 0.3 0.2) (F.mkPoint 0.7 0.4).
Proof.
  intros H. apply (f_equal (PrimFloat.ltb 0)) in H. vm_compute in H.
  discriminate H.
Qed.

Example float_hull_shifted :
  length (F.convex_hull
            [F.mkPoint (0.1 + 1) (0.1 + 1); F.mkPoint (0.3 + 1) (0.2 + 1);
             F.mkPoint (0.7 + 1) (0.4 + 1)])
  ≠ length (F.convex_hull [F.mkPoint 0.1 0.1; F.mkPoint 0.3 0.2; F.mkPoint 0.7 0.4]).
Proof. vm_compute. discriminate. Qed.

(** * Further properties of the code *)

(** ** [direction] *)

(** X1. On points with integer coordinates:
    [direction] keeps its value when its three arguments are rotated,
    changes sign when two of them are exchanged, and is zero when two of
    them are the same point. *)
Theorem direction_symmetries a b c :
  direction b c a = direction a b c ∧
  direction c a b = direction a b c ∧
  direction b a c = - direction a b c ∧
  direction a c b = - direction a b c ∧
  direction c b a = - direction a b c ∧
  direction a a c = 0 ∧ direction a b a = 0 ∧ direction a b b = 0.
Proof. unfold direction. repeat split; ring. Qed.

(** X2. On points with integer coordinates:
    moving the three points by the same vector does not change
    [direction]; multiplying all coordinates by [k] multiplies it by
    [k²], so a factor other than zero keeps its sign. *)
Theorem direction_shift_scale t k a b c :
  direction (shift t a) (shift t b) (shift t c) = direction a b c ∧
  direction (scale k a) (scale k b) (scale k c) = k * k * direction a b c ∧
  (k ≠ 0 →
   (0 < direction (scale k a) (scale k b) (scale k c) ↔ 0 < direction a b c) ∧
   (direction (scale k a) (scale k b) (scale k c) = 0 ↔ direction a b c = 0)).
Proof.
  assert (Hs : direction (scale k a) (scale k b) (scale k c)
               = k * k * direction a b c)
    by (unfold direction, scale; simpl; ring).
  split; [unfold direction, shift; simpl; ring|]. split; [exact Hs|].
  intros Hk. rewrite Hs. assert (0 < k * k) by nia. split; split; nia.
Qed.

(** ** The [while] loop *)



(** ** One sweep, over any list of points *)

Lemma push_last stk p :
  last (push stk p) = match stk with [] => Some p | _ => last stk end.
Proof.
  unfold push. destruct stk as [|b s]; [reflexivity|].
  pose proof (pop_while_suffix (b :: s) p) as [k Hk].
  pose proof (pop_while_nonempty (b :: s) p ltac:(done)) as Hne.
  destruct (pop_while (b :: s) p) as [|c r] eqn:E; [done|].
  rewrite last_cons_cons, Hk. by rewrite last_app_cons.
Qed.

Lemma scan_sublist pts stk done :
  reverse stk `sublist_of` done →
  reverse (foldl push stk pts) `sublist_of` done ++ pts.
Proof.
  revert stk done. induction pts as [|p pts IH]; intros stk done Hsub.
  - by rewrite app_nil_r.
  - cbn [foldl].
    rewrite (assoc_L (++) done [p] pts : done ++ p :: pts = (done ++ [p]) ++ pts).
    apply IH. unfold push. rewrite reverse_cons.
    apply sublist_app; [|done].
    etrans; [|exact Hsub].
    destruct (pop_while_suffix stk p) as [k Hk]. rewrite Hk at 2.
    rewrite reverse_app. by apply sublist_inserts_r.
Qed.

Lemma scan_ends pts stk :
  pts ≠ [] →
  head (foldl push stk pts) = last pts ∧
  last (foldl push stk pts) = match stk with [] => head pts | _ => last stk end.
Proof.
  revert stk. induction pts as [|p pts IH]; intros stk Hne; [done|].
  cbn [foldl]. destruct pts as [|q pts].
  - simpl. split; [done|]. rewrite push_last. by destruct stk.
  - destruct (IH (push stk p) ltac:(done)) as [Hh Hl].
    split; [by rewrite Hh|].
    rewrite Hl. unfold push at 1. rewrite push_last. by destruct stk.
Qed.

(** X4. Whatever the list it is given, a sweep (lines 38-46) returns
    points of that list in the order they have there, beginning with its
    first point and ending with its last, and it is empty only for the
    empty list. *)
Theorem sweep_keeps_order pts :
  sweep pts `sublist_of` pts ∧
  head (sweep pts) = head pts ∧
  last (sweep pts) = last pts ∧
  (sweep pts = [] ↔ pts = []).
Proof.
  rewrite sweep_scan.
  assert (Hends : head (reverse (scan pts)) = head pts ∧
                  last (reverse (scan pts)) = last pts).
  { destruct pts as [|p pts]; [done|].
    destruct (scan_ends (p :: pts) [] ltac:(done)) as [Hh Hl].
    fold (scan (p :: pts)) in Hh, Hl.
    by rewrite head_reverse, last_reverse, Hh, Hl. }
  split; [apply (scan_sublist pts [] []); done|].
  split; [apply Hends|]. split; [apply Hends|].
  split.
  - intros Hnil. destruct Hends as [Hh _]. rewrite Hnil in Hh.
    by destruct pts.
  - intros ->. reflexivity.
Qed.





(** ** The two chains of [convex_hull] *)

(** X6. On points with integer coordinates:
    the lower chain (lines 38-46) keeps exactly the input points
    that lie strictly below every segment from an earlier to a later
    input point; it is in ascending order, and every input point is on or
    to the left of each of its edges. *)
Theorem lower_chain_spec points :
  let pts := sort_points (of_key <$> elements (uniq points)) in
  (∀ v, v ∈ sweep pts ↔ v ∈ points ∧ lower_vertex points v) ∧
  StronglySorted lex_lt (sweep pts) ∧
  (∀ u v q, adjacent u v (sweep pts) → q ∈ points → 0 ≤ direction u v q).
Proof.
  intros pts.
  pose proof (sort_points_strict _ (distinct_NoDup points)) as Hs. fold pts in Hs.
  assert (Hel : ∀ q, q ∈ pts ↔ q ∈ points).
  { intros q. unfold pts. by rewrite sort_points_elem, distinct_elem. }
  split; [|split].
  - intros v. by rewrite (lower_elem pts Hs), Hel, (lower_vertex_ext pts points).
  - by apply lower_sorted.
  - intros u v q Hadj Hq. apply (lower_edge pts Hs); [done|by apply Hel].
Qed.

(** X7. On points with integer coordinates:
    the upper chain (lines 49-53) keeps exactly the input points
    that lie strictly above every segment from an earlier to a later
    input point; it is in descending order, and every input point is on
    or to the left of each of its edges. *)
Theorem upper_chain_spec points :
  let pts := sort_points (of_key <$> elements (uniq points)) in
  (∀ v, v ∈ sweep (reverse pts) ↔ v ∈ points ∧ upper_vertex points v) ∧
  StronglySorted lex_gt (sweep (reverse pts)) ∧
  (∀ u v q, adjacent u v (sweep (reverse pts)) → q ∈ points →
            0 ≤ direction u v q).
Proof.
  intros pts.
  pose proof (sort_points_strict _ (distinct_NoDup points)) as Hs. fold pts in Hs.
  assert (Hel : ∀ q, q ∈ pts ↔ q ∈ points).
  { intros q. unfold pts. by rewrite sort_points_elem, distinct_elem. }
  split; [|split].
  - intros v. by rewrite (upper_elem pts Hs), Hel, (upper_vertex_ext pts points).
  - by apply upper_sorted.
  - intros u v q Hadj Hq. apply (upper_edge pts Hs); [done|by apply Hel].
Qed.

(** X8. With two distinct input points or more, the lower chain runs
    from the least input point [m] to the greatest [M] and the upper chain
    from [M] back to [m]: each chain ends where the other begins, as the
    comment of lines 55-57 says, and the result holds each corner once. *)
Theorem chains_share_corners points a b :
  a ∈ points → b ∈ points → a ≠ b →
  let pts := sort_points (of_key <$> elements (uniq points)) in
  ∃ m M lo up,
    sweep pts = m :: lo ++ [M] ∧
    sweep (reverse pts) = M :: up ++ [m] ∧
    convex_hull points = m :: lo ++ M :: up ∧
    (∀ q, q ∈ points → point_le m q ∧ point_le q M) ∧
    (length (convex_hull points)
     = length (sweep pts) + length (sweep (reverse pts)) - 2)%nat.
Proof.
  intros Ha Hb Hab pts.
  destruct (convex_hull_shape points a b Ha Hb Hab)
    as (m & M & lo & up & Hh & Hlo & Hup & Hm & HM & HmM & Hmin & Hmax).
  fold pts in Hlo, Hup. exists m, M, lo, up.
  split; [done|]. split; [done|]. split; [done|]. split.
  - intros q Hq. split.
    + destruct (Hmin q Hq) as [->|?]; [|by apply lex_lt_point_le].
      by destruct (total point_le m m).
    + destruct (Hmax q Hq) as [->|?]; [|by apply lex_lt_point_le].
      by destruct (total point_le M M).
  - rewrite Hh, Hlo, Hup. cbn [length]. rewrite !length_app. cbn [length]. lia.
Qed.

Lemma chains_share_corners_witness :
  let points := [mkPoint 2 2; mkPoint 0 0; mkPoint 2 0; mkPoint 0 2] in
  let pts := sort_points (of_key <$> elements (uniq points)) in
  ∃ m M lo up,
    sweep pts = m :: lo ++ [M] ∧
    sweep (reverse pts) = M :: up ++ [m] ∧
    convex_hull points = m :: lo ++ M :: up ∧
    (∀ q, q ∈ points → point_le m q ∧ point_le q M) ∧
    (length (convex_hull points)
     = length (sweep pts) + length (sweep (reverse pts)) - 2)%nat.
Proof.
  apply (chains_share_corners
           [mkPoint 2 2; mkPoint 0 0; mkPoint 2 0; mkPoint 0 2]
           (mkPoint 2 2) (mkPoint 0 0)).
  - by left.
  - right. by left.
  - discriminate.
Defined.

(** ** The set and the number of the returned points *)

(** X9. On points with integer coordinates:
    a point is returned exactly when it is an input point that lies
    strictly below every segment from an earlier to a later input point,
    or strictly above every such segment. *)
Theorem returned_points_spec points v :
  v ∈ convex_hull points ↔
  v ∈ points ∧
  ((∀ a p, a ∈ points → p ∈ points → lex_lt a v → lex_lt v p →
           0 < direction a v p) ∨
   (∀ a p, a ∈ points → p ∈ points → lex_lt a v → lex_lt v p →
           direction a v p < 0)).
Proof. apply convex_hull_vertices. Qed.

Lemma hull_single_or_long points q :
  q ∈ points →
  convex_hull points = [q] ∨ (2 ≤ length (convex_hull points))%nat.
Proof.
  intros Hq. unfold convex_hull.
  pose proof (proj2 (distinct_elem points q) Hq) as Hq'.
  destruct (decide (length (of_key <$> elements (uniq points)) ≤ 1)%nat) as [Hs|Hl].
  - left. rewrite hull_of_short by done.
    destruct (short_list _ Hs) as [Heq|[p Heq]]; rewrite Heq in Hq' |- *.
    + by apply elem_of_nil in Hq'.
    + by apply list_elem_of_singleton in Hq' as ->.
  - right.
    destruct (hull_of_shape _ (distinct_NoDup points) ltac:(lia))
      as (m & M & lo & up & -> & _).
    rewrite length_app. simpl. lia.
Qed.

(** X10. On points with integer coordinates:
    [convex_hull] never returns more points than the input has
    distinct coordinate pairs, and it returns no point at all only for the
    empty input. *)
Theorem returned_points_count points :
  (length (convex_hull points) ≤ size (uniq points))%nat ∧
  (convex_hull points = [] ↔ points = []).
Proof.
  split.
  - replace (size (uniq points))
      with (length (of_key <$> elements (uniq points)))
      by (by rewrite length_fmap).
    apply submseteq_length, NoDup_submseteq; [apply convex_hull_NoDup|].
    intros v Hv. apply distinct_elem. by apply convex_hull_vertices in Hv as [? _].
  - split; [|by intros ->].
    intros Hnil. destruct points as [|q points]; [done|exfalso].
    destruct (hull_single_or_long (q :: points) q ltac:(by left)) as [Hone|Hlen];
      rewrite Hnil in *; [done|simpl in Hlen; lia].
Qed.

Lemma direction_zero_on_line m M q :
  direction m M q = 0 →
  on_line (y m - y M) (x M - x m) ((y m - y M) * x m + (x M - x m) * y m) q.
Proof. unfold direction, on_line. lia. Qed.

(** X11. On points with integer coordinates:
    as soon as three input points are not on one line, the result
    has at least three points. *)
Theorem hull_not_flat points a b c :
  a ∈ points → b ∈ points → c ∈ points → direction a b c ≠ 0 →
  (3 ≤ length (convex_hull points))%nat.
Proof.
  intros Ha Hb Hc Hturn.
  assert (Hab : a ≠ b) by (intros ->; by rewrite direction_degenerate in Hturn).
  destruct (convex_hull_shape points a b Ha Hb Hab)
    as (m & M & lo & up & Hh & _ & _ & Hm & HM & HmM & _ & _).
  destruct (decide (3 ≤ length (convex_hull points))%nat) as [|Hshort]; [done|].
  exfalso. rewrite Hh, length_app in Hshort. simpl in Hshort.
  destruct lo as [|? ?]; [|simpl in Hshort; lia].
  destruct up as [|? ?]; [|simpl in Hshort; lia].
  assert (Hflat : ∀ q, q ∈ points → direction m M q = 0).
  { intros q Hq.
    pose proof (convex_hull_edge points m M q) as H1.
    pose proof (convex_hull_edge points M m q) as H2.
    rewrite Hh in H1, H2. simpl in H1, H2.
    specialize (H1 (adjacent_here _ _ _) Hq).
    specialize (H2 (adjacent_later _ _ _ _ (adjacent_here _ _ _)) Hq).
    rewrite (direction_flip m M q) in H2. lia. }
  apply Hturn.
  apply (on_line_direction (y m - y M) (x M - x m)
           ((y m - y M) * x m + (x M - x m) * y m));
    try (apply direction_zero_on_line; by apply Hflat).
  destruct (decide (y m = y M)) as [Hy|]; [|left; lia].
  destruct (decide (x M = x m)) as [Hx|]; [|right; lia].
  exfalso. apply (lex_lt_irrefl m). destruct m, M. simpl in *. by subst.
Qed.

Lemma hull_not_flat_witness :
  (3 ≤ length (convex_hull [mkPoint 0 0; mkPoint 1 0; mkPoint 2 0; mkPoint 1 1]))%nat.
Proof.
  apply (hull_not_flat [mkPoint 0 0; mkPoint 1 0; mkPoint 2 0; mkPoint 1 1]
           (mkPoint 0 0) (mkPoint 1 0) (mkPoint 1 1)).
  - by left.
  - right. by left.
  - do 3 right. by left.
  - discriminate.
Defined.

(** ** Every returned point is a corner *)

Lemma two_lines_meet u v w q :
  direction u v w ≠ 0 → direction u v q = 0 → direction v w q = 0 → q = v.
Proof.
  intros Hne H1 H2.
  assert (Hx : (x q - x v) * direction u v w
               = (x w - x v) * direction u v q - (x v - x u) * direction v w q)
    by (unfold direction; ring).
  assert (Hy : (y q - y v) * direction u v w
               = (y w - y v) * direction u v q - (y v - y u) * direction v w q)
    by (unfold direction; ring).
  rewrite H1, H2 in Hx, Hy.
  assert (x q = x v) by nia. assert (y q = y v) by nia.
  destruct q, v. simpl in *. congruence.
Qed.

Lemma segment_dot v o q :
  on_segment v o q → q ≠ v →
  0 < (x o - x v) * (x q - x v) + (y o - y v) * (y q - y v).
Proof.
  intros (H0 & Hx & Hy) Hne.
  assert (Hc : x q ≠ x v ∨ y q ≠ y v).
  { destruct (decide (x q = x v)) as [Hxe|]; [|auto].
    destruct (decide (y q = y v)) as [Hye|]; [|auto].
    exfalso. apply Hne. destruct q, v. simpl in *. congruence. }
  unfold direction in H0.
  assert (0 ≤ (x o - x v) * (x q - x v)) by nia.
  assert (0 ≤ (y o - y v) * (y q - y v)) by nia.
  destruct Hc as [Hc|Hc].
  - assert (0 < (x o - x v) * (x q - x v)) by nia. lia.
  - assert (0 < (y o - y v) * (y q - y v)) by nia. lia.
Qed.

(** X12. On points with integer coordinates:
    every returned point is a corner of the input: some linear
    function [α·x + β·y] is strictly smaller at it than at every other
    input point, so it lies outside the hull of the others. *)
Theorem returned_point_is_corner points v :
  v ∈ convex_hull points →
  ∃ α β, ∀ q, q ∈ points → q ≠ v → α * x v + β * y v < α * x q + β * y q.
Proof.
  intros Hv. pose proof (convex_hull_extreme points v Hv) as [Hvp _].
  pose proof (convex_hull_NoDup points) as Hnd.
  destruct (hull_single_or_long points v Hvp) as [Hone|Hlen].
  { exists 0, 0. intros q Hq Hne. exfalso.
    destruct (hull_single_or_long points q Hq) as [Hq1|Hq2].
    - rewrite Hone in Hq1. congruence.
    - rewrite Hone in Hq2. simpl in Hq2. lia. }
  set (h := convex_hull points) in *.
  assert (Hne : h ≠ []) by (apply long_nonempty; lia).
  apply list_elem_of_lookup in Hv as [i Hi].
  pose proof (lookup_lt_Some _ _ _ Hi) as Hilt.
  apply cyc_small in Hi.
  set (w := cyc h (Z.of_nat i + 1)).
  assert (Hvw : ∀ q, q ∈ points → 0 ≤ direction v w q).
  { intros q Hq. rewrite <- Hi.
    apply (convex_hull_edge points); [apply (cyc_adjacent h _ Hne)|done]. }
  destruct (decide (length h = 2)%nat) as [Htwo|Hmore].
  - (* a segment: measure along it, away from [v] *)
    exists (x w - x v), (y w - y v). intros q Hq Hqv.
    assert (Hwv : 0 ≤ direction w v q).
    { pose proof (convex_hull_edge points _ _ q
                    (cyc_adjacent h (Z.of_nat i + 1) Hne) Hq) as He.
      replace (cyc h (Z.of_nat i + 1 + 1)) with v in He; [exact He|].
      rewrite <- Hi. unfold cyc. f_equal. f_equal.
      replace (Z.of_nat i + 1 + 1) with (Z.of_nat i + 1 * Z.of_nat (length h)) by lia.
      by rewrite Z_mod_plus_full. }
    rewrite (direction_flip v w q) in Hwv.
    destruct (convex_hull_contains points q Hq) as [_ Hin].
    destruct (Hin (Z.of_nat i) ltac:(fold h; lia)) as [Hpos|Hseg];
      fold h in Hpos || fold h in Hseg; rewrite Hi in *.
    + specialize (Hvw q Hq). fold w in Hpos. lia.
    + fold w in Hseg. pose proof (segment_dot v w q Hseg Hqv). lia.
  - (* a polygon: measure across the two edges that meet at [v] *)
    set (u := cyc h (Z.of_nat i - 1)).
    assert (Huv : ∀ q, q ∈ points → 0 ≤ direction u v q).
    { intros q Hq. rewrite <- Hi.
      pose proof (convex_hull_edge points _ _ q
                    (cyc_adjacent h (Z.of_nat i - 1) Hne) Hq) as He.
      by replace (Z.of_nat i - 1 + 1) with (Z.of_nat i) in He by lia. }
    pose proof (convex_hull_turn points (Z.of_nat i) ltac:(fold h; lia)) as Hturn.
    fold h in Hturn. rewrite Hi in Hturn. fold u w in Hturn.
    exists (- (y w - y u)), (x w - x u). intros q Hq Hqv.
    assert (Hsum : direction u v q + direction v w q
                   = - (y w - y u) * (x q - x v) + (x w - x u) * (y q - y v))
      by (unfold direction; ring).
    specialize (Huv q Hq). specialize (Hvw q Hq).
    destruct (decide (direction u v q + direction v w q = 0)) as [Hz|]; [|lia].
    exfalso. apply Hqv. apply (two_lines_meet u v w q); lia.
Qed.

Lemma returned_point_is_corner_witness :
  ∃ α β, ∀ q,
    q ∈ [mkPoint 0 0; mkPoint 2 0; mkPoint 1 1; mkPoint 0 2] →
    q ≠ mkPoint 2 0 → α * 2 + β * 0 < α * x q + β * y q.
Proof.
  apply (returned_point_is_corner
           [mkPoint 0 0; mkPoint 2 0; mkPoint 1 1; mkPoint 0 2] (mkPoint 2 0)).
  vm_compute. right. left.
Defined.

(** ** Moving and scaling the input *)

(** The whole computation commutes with every map of the plane that
    keeps the order of the sort and the outcome of the turn test. *)
Section similar_input.
Variable g : Point → Point.
Hypothesis g_inj : ∀ p q, g p = g q → p = q.
Hypothesis g_le : ∀ p q, point_le p q → point_le (g p) (g q).
Hypothesis g_turn : ∀ a b c,
  direction (g a) (g b) (g c) ≤ 0 ↔ direction a b c ≤ 0.

Lemma removelast_fmap (l : list Point) : removelast (g <$> l) = g <$> removelast l.
Proof.
  induction l as [|a [|b l] IH]; try reflexivity.
  change (g <$> a :: b :: l) with (g a :: (g <$> b :: l)).
  change (removelast (a :: b :: l)) with (a :: removelast (b :: l)).
  change (removelast (g a :: (g <$> b :: l)))
    with (g a :: removelast (g <$> b :: l)).
  by rewrite IH.
Qed.

Lemma lookup_total_fmap_point (l : list Point) i :
  (i < length l)%nat → (g <$> l) !!! i = g (l !!! i).
Proof. apply list_lookup_total_fmap. Qed.

Lemma pop_loop_fmap n chain p :
  pop_loop n (g <$> chain) (g p) = g <$> pop_loop n chain p.
Proof.
  revert chain. induction n as [|n IH]; intros chain; [reflexivity|].
  cbn [pop_loop]. rewrite length_fmap.
  destruct (decide (2 ≤ length chain)%nat) as [Hlen|Hlen].
  - rewrite !lookup_total_fmap_point by lia.
    rewrite (bool_decide_ext _ _ (g_turn _ _ _)).
    destruct (_ && _); [|reflexivity].
    rewrite removelast_fmap. apply IH.
  - rewrite (bool_decide_eq_false_2 (2 ≤ length chain)%nat) by done. reflexivity.
Qed.

Lemma sweep_fmap pts : sweep (g <$> pts) = g <$> sweep pts.
Proof.
  unfold sweep. change [] with (g <$> []) at 1. generalize (@nil Point).
  induction pts as [|p pts IH]; intros chain; [reflexivity|].
  cbn [fmap list_fmap foldl]. rewrite <- IH. f_equal.
  unfold sweep_step. by rewrite length_fmap, pop_loop_fmap, fmap_snoc.
Qed.

Lemma sort_points_fmap pts : sort_points (g <$> pts) = g <$> sort_points pts.
Proof.
  apply (StronglySorted_unique point_le).
  - apply sort_points_sorted.
  - apply (StronglySorted_fmap g point_le point_le); [exact g_le|].
    apply sort_points_sorted.
  - by rewrite !sort_points_perm.
Qed.

Lemma hull_of_fmap pts : hull_of (g <$> pts) = g <$> hull_of pts.
Proof.
  unfold hull_of. rewrite length_fmap. case_bool_decide; [reflexivity|].
  cbn zeta. rewrite sort_points_fmap, <- fmap_reverse, !sweep_fmap.
  by rewrite !removelast_fmap, fmap_app.
Qed.

Lemma convex_hull_fmap points :
  convex_hull (g <$> points) = g <$> convex_hull points.
Proof.
  unfold convex_hull at 2. rewrite <- hull_of_fmap.
  rewrite <- (of_key_key_list (g <$> (of_key <$> elements (uniq points)))).
  symmetry. apply convex_hull_any_listing.
  - apply NoDup_fmap_2; [apply _|].
    apply NoDup_fmap_2_strong; [|apply distinct_NoDup].
    intros p q _ _. apply g_inj.
  - intros k. unfold uniq at 2. rewrite elem_of_list_to_set.
    split; intros Hk;
      apply list_elem_of_fmap in Hk as (p' & -> & Hp');
      apply list_elem_of_fmap in Hp' as (p & -> & Hp);
      apply list_elem_of_fmap_2, list_elem_of_fmap_2; by apply distinct_elem.
Qed.
End similar_input.

(** X13. On points with integer coordinates:
    moving every input point by the same vector moves the result
    by that vector: the same points are returned, in the same order. *)
Theorem convex_hull_shift t points :
  convex_hull (shift t <$> points) = shift t <$> convex_hull points.
Proof.
  apply convex_hull_fmap.
  - intros [a b] [c d]. unfold shift. simpl. intros [= ? ?]. f_equal; lia.
  - intros p q. unfold point_le, key_le, key, shift. simpl. lia.
  - intros a b c.
    replace (direction (shift t a) (shift t b) (shift t c)) with (direction a b c);
      [done|unfold direction, shift; simpl; ring].
Qed.

(** X14. On points with integer coordinates:
    multiplying all coordinates by a positive integer [k] multiplies
    the returned points by [k] and changes nothing else. *)
Theorem convex_hull_scale k points :
  0 < k → convex_hull (scale k <$> points) = scale k <$> convex_hull points.
Proof.
  intros Hk. apply convex_hull_fmap.
  - intros [a b] [c d]. unfold scale. simpl. intros [= ? ?]. f_equal; nia.
  - intros p q. unfold point_le, key_le, key, scale. simpl. nia.
  - intros a b c.
    replace (direction (scale k a) (scale k b) (scale k c))
      with (k * k * direction a b c)
      by (unfold direction, scale; simpl; ring).
    assert (0 < k * k) by nia. nia.
Qed.

Lemma convex_hull_scale_witness :
  convex_hull (scale 3 <$> [mkPoint 0 0; mkPoint 1 0; mkPoint 0 1; mkPoint (-1) 0])
  = scale 3 <$> convex_hull [mkPoint 0 0; mkPoint 1 0; mkPoint 0 1; mkPoint (-1) 0].
Proof.
  apply (convex_hull_scale 3
           [mkPoint 0 0; mkPoint 1 0; mkPoint 0 1; mkPoint (-1) 0]).
  lia.
Defined.

(** ** Points that are not returned do not matter *)

Lemma sorted_bracket (R : relation Point) L m M v :
  (∀ p q, R p q ∨ p = q ∨ R q p) → (∀ p q, R p q → R q p → False) →
  head L = Some m → last L = Some M → v ∉ L → R m v → R v M →
  ∃ u w, adjacent u w L ∧ R u v ∧ R v w.
Proof.
  intros Htot Hasym. revert m.
  induction L as [|a L IH]; intros m Hhead Hlast Hv Hmv HvM; [done|].
  simpl in Hhead. injection Hhead as ->.
  destruct L as [|b L].
  - simpl in Hlast. injection Hlast as ->. destruct (Hasym _ _ Hmv HvM).
  - destruct (Htot v b) as [Hvb|[->|Hbv]].
    + exists m, b. split; [constructor|done].
    + exfalso. apply Hv. right. by left.
    + destruct (IH b) as (u & w & Hadj & ? & ?); try done.
      * intros Hin. apply Hv. by right.
      * exists u, w. split; [by constructor|done].
Qed.

Lemma hull_of_between pts sub :
  NoDup pts → NoDup sub →
  (∀ q, q ∈ sub → q ∈ pts) → (∀ v, v ∈ hull_of pts → v ∈ sub) →
  hull_of sub = hull_of pts.
Proof.
  intros Hnd Hnds Hsub Hkeep.
  destruct (decide (length pts ≤ 1)%nat) as [Hshort|Hlong].
  { apply hull_of_perm, NoDup_Permutation; try done.
    intros q. split; [apply Hsub|]. intros Hq. apply Hkeep.
    by rewrite hull_of_short. }
  assert (Hlen : (2 ≤ length pts)%nat) by lia.
  destruct (hull_of_shape pts Hnd Hlen)
    as (m & M & lo & up & Hh & Hlo & Hup & Hm & HM & HmM & Hmin & Hmax).
  pose proof (λ v, hull_of_vertices pts v Hnd) as Hvert.
  pose proof (sort_points_strict _ Hnd) as Hs.
  pose proof (sort_points_strict _ Hnds) as Hss.
  assert (HmH : m ∈ hull_of pts) by (rewrite Hh; apply elem_of_app; left; by left).
  assert (HMH : M ∈ hull_of pts) by (rewrite Hh; apply elem_of_app; right; by left).
  assert (HneM : m ≠ M) by (intros ->; by eapply lex_lt_irrefl).
  pose proof (two_members_long sub m M (Hkeep _ HmH) (Hkeep _ HMH) HneM) as Hlens.
  assert (Hlower : ∀ v, v ∈ sweep (sort_points pts) → v ∈ sub).
  { intros v Hv. apply Hkeep, Hvert.
    apply (lower_elem _ Hs) in Hv as [Hv Hl]. rewrite sort_points_elem in Hv.
    split; [done|]. left.
    by rewrite <- (lower_vertex_ext (sort_points pts) pts) by apply sort_points_elem. }
  assert (Hupper : ∀ v, v ∈ sweep (reverse (sort_points pts)) → v ∈ sub).
  { intros v Hv. apply Hkeep, Hvert.
    apply (upper_elem _ Hs) in Hv as [Hv Hu]. rewrite sort_points_elem in Hv.
    split; [done|]. right.
    by rewrite <- (upper_vertex_ext (sort_points pts) pts) by apply sort_points_elem. }
  rewrite (hull_of_unfold sub Hlens), (hull_of_unfold pts Hlen).
  rewrite (lower_chain_determined (sort_points sub) (sort_points pts) Hss Hs).
  2:{ intros v. rewrite <- (lower_elem _ Hs), !sort_points_elem.
      rewrite (lower_vertex_ext (sort_points sub) sub) by apply sort_points_elem.
      split.
      - intros [Hv Hl].
        destruct (decide (v ∈ sweep (sort_points pts))) as [|Hout]; [done|exfalso].
        assert (Hvm : lex_lt m v).
        { destruct (Hmin v (Hsub v Hv)) as [->|]; [|done].
          exfalso. apply Hout. rewrite Hlo. by left. }
        assert (HvM : lex_lt v M).
        { destruct (Hmax v (Hsub v Hv)) as [->|]; [|done].
          exfalso. apply Hout. rewrite Hlo. right. apply elem_of_app. right. by left. }
        destruct (sorted_bracket lex_lt (sweep (sort_points pts)) m M v)
          as (u & w & Hadj & Huv & Hvw); try done.
        + apply lex_lt_total.
        + intros p q Hpq Hqp. eapply lex_lt_irrefl, lex_lt_trans; eassumption.
        + by rewrite Hlo.
        + rewrite Hlo. change (m :: lo ++ [M]) with ((m :: lo) ++ [M]).
          by rewrite last_snoc.
        + pose proof (adjacent_elem _ _ _ Hadj) as [Hu Hw].
          specialize (Hl u w (Hlower u Hu) (Hlower w Hw) Huv Hvw).
          pose proof (lower_edge _ Hs u w v Hadj
                        ltac:(by apply sort_points_elem, Hsub)) as He.
          assert (direction u w v = - direction u v w) by (unfold direction; ring).
          lia.
      - intros Hv. split; [by apply Hlower|].
        apply (lower_elem _ Hs) in Hv as [_ Hl].
        intros a p Ha Hp. apply Hl; by apply sort_points_elem, Hsub. }
  rewrite (upper_chain_determined (sort_points sub) (sort_points pts) Hss Hs).
  2:{ intros v. rewrite <- (upper_elem _ Hs), !sort_points_elem.
      rewrite (upper_vertex_ext (sort_points sub) sub) by apply sort_points_elem.
      split.
      - intros [Hv Hu].
        destruct (decide (v ∈ sweep (reverse (sort_points pts))))
          as [|Hout]; [done|exfalso].
        assert (Hvm : lex_lt m v).
        { destruct (Hmin v (Hsub v Hv)) as [->|]; [|done].
          exfalso. apply Hout. rewrite Hup. right. apply elem_of_app. right. by left. }
        assert (HvM : lex_lt v M).
        { destruct (Hmax v (Hsub v Hv)) as [->|]; [|done].
          exfalso. apply Hout. rewrite Hup. by left. }
        destruct (sorted_bracket lex_gt (sweep (reverse (sort_points pts))) M m v)
          as (u & w & Hadj & Huv & Hvw); try done.
        + apply lex_gt_total.
        + intros p q Hpq Hqp. eapply lex_gt_irrefl, lex_gt_trans; eassumption.
        + by rewrite Hup.
        + rewrite Hup. change (M :: up ++ [m]) with ((M :: up) ++ [m]).
          by rewrite last_snoc.
        + pose proof (adjacent_elem _ _ _ Hadj) as [Hu' Hw].
          specialize (Hu w u (Hupper w Hw) (Hupper u Hu') Hvw Huv).
          pose proof (upper_edge _ Hs u w v Hadj
                        ltac:(by apply sort_points_elem, Hsub)) as He.
          assert (direction u w v = direction w v u) by (unfold direction; ring).
          lia.
      - intros Hv. split; [by apply Hupper|].
        apply (upper_elem _ Hs) in Hv as [_ Hu].
        intros a p Ha Hp. apply Hu; by apply sort_points_elem, Hsub. }
  reflexivity.
Qed.

(** X15. On points with integer coordinates:
    only the returned points matter: leaving out input points that
    are not returned, in whatever number, does not change the result. *)
Theorem inner_points_do_not_matter points sub :
  (∀ q, q ∈ sub → q ∈ points) →
  (∀ v, v ∈ convex_hull points → v ∈ sub) →
  convex_hull sub = convex_hull points.
Proof.
  intros Hsub Hkeep. unfold convex_hull.
  apply hull_of_between; try apply distinct_NoDup.
  - intros q Hq. rewrite distinct_elem in Hq |- *. by apply Hsub.
  - intros v Hv. rewrite distinct_elem. by apply Hkeep.
Qed.

Lemma inner_points_do_not_matter_witness :
  convex_hull [mkPoint 0 2; mkPoint 2 0; mkPoint 0 0]
  = convex_hull [mkPoint 0 0; mkPoint 1 0; mkPoint 2 0; mkPoint 1 1; mkPoint 0 2].
Proof.
  apply (inner_points_do_not_matter
           [mkPoint 0 0; mkPoint 1 0; mkPoint 2 0; mkPoint 1 1; mkPoint 0 2]
           [mkPoint 0 2; mkPoint 2 0; mkPoint 0 0]).
  - intros q Hq. rewrite !elem_of_cons, elem_of_nil in Hq.
    destruct Hq as [->|[->|[->|[]]]]; rewrite !elem_of_cons; auto 10.
  - intros v Hv.
    change (convex_hull
              [mkPoint 0 0; mkPoint 1 0; mkPoint 2 0; mkPoint 1 1; mkPoint 0 2])
      with [mkPoint 0 0; mkPoint 2 0; mkPoint 0 2] in Hv.
    rewrite !elem_of_cons, elem_of_nil in Hv.
    destruct Hv as [->|[->|[->|[]]]]; rewrite !elem_of_cons; auto 10.
Defined.

(** ** Printing *)

Example demo_output :
  main_output = "Hull: [(0, 0), (2, 0), (2, 2), (0, 2)]"%string.
Proof. vm_compute. reflexivity. Qed.

Example repr_negative : repr (mkPoint (-12) 340) = "(-12, 340)"%string.
Proof. vm_compute. reflexivity. Qed.

Lemma occurs_uint c d :
  occurs c (DecimalString.NilEmpty.string_of_uint d) → is_num_char c = true.
Proof.
  induction d; simpl; [intros []|..]; (intros [<-|H]; [reflexivity|auto]).
Qed.

Lemma occurs_str c n : occurs c (str n) → is_num_char c = true.
Proof.
  assert (Hu : ∀ d, occurs c (DecimalString.NilZero.string_of_uint d) →
                    is_num_char c = true).
  { intros d. destruct d;
      try (match goal with
           | |- occurs c (DecimalString.NilZero.string_of_uint ?e) → _ =>
               exact (occurs_uint c e)
           end).
    simpl. intros [<-|[]]. reflexivity. }
  unfold str, DecimalString.NilZero.string_of_int.
  destruct (Z.to_int n) as [d|d]; [exact (Hu d)|].
  intros H. destruct H as [<-|H]; [reflexivity|exact (Hu d H)].
Qed.

Lemma to_int_not_nil n :
  Z.to_int n ≠ Decimal.Pos Decimal.Nil ∧ Z.to_int n ≠ Decimal.Neg Decimal.Nil.
Proof.
  destruct n as [|p|p]; simpl; split; try discriminate;
    intros [= H]; by apply DecimalPos.Unsigned.to_uint_nonnil in H.
Qed.

(** Reading back what [str] prints gives the integer again. *)
Lemma str_read_back n :
  DecimalString.NilZero.int_of_string (str n) = Some (Z.to_int n).
Proof.
  destruct (to_int_not_nil n). by apply DecimalString.NilZero.isi.
Qed.

Lemma str_inj a b : str a = str b → a = b.
Proof.
  intros H. apply DecimalZ.to_int_inj.
  pose proof (str_read_back a) as Ha. rewrite H, str_read_back in Ha.
  congruence.
Qed.

Lemma split_at c s1 s2 t1 t2 :
  ¬ occurs c s1 → ¬ occurs c s2 →
  String.append s1 (String.String c t1) = String.append s2 (String.String c t2) →
  s1 = s2 ∧ t1 = t2.
Proof.
  revert s2. induction s1 as [|a s1 IH]; intros [|b s2] H1 H2 Heq;
    simpl in *.
  - by injection Heq as ->.
  - injection Heq as <- _. destruct H2. by left.
  - injection Heq as -> _. destruct H1. by left.
  - injection Heq as -> Heq.
    destruct (IH s2) as [-> ->]; auto.
Qed.

(** X16. [__repr__] writes a point as ["(x, y)"] with both coordinates in
    decimal, and two points are written alike only if they have the same
    coordinates. *)
Theorem repr_injective p q :
  repr p = String.append "(" (String.append (str (x p))
             (String.append ", " (String.append (str (y p)) ")"))) ∧
  DecimalString.NilZero.int_of_string (str (x p)) = Some (Z.to_int (x p)) ∧
  (repr p = repr q → x p = x q ∧ y p = y q).
Proof.
  split; [reflexivity|]. split; [apply str_read_back|].
  unfold repr. simpl. intros [= Heq].
  apply split_at in Heq as [Hx Heq];
    try (intros Hc; by apply occurs_str in Hc).
  injection Heq as Heq.
  change ")"%string with (String.String ")"%char String.EmptyString) in Heq.
  apply split_at in Heq as [Hy _];
    try (intros Hc; by apply occurs_str in Hc).
  split; by apply str_inj.
Qed.

(** ** Corners stay corners *)

(** X17. On points with integer coordinates:
    a returned point is returned again for every part of the input
    that still holds it: taking other points away never makes a corner
    disappear. *)
Theorem corners_persist points sub v :
  (∀ q, q ∈ sub → q ∈ points) → v ∈ sub →
  v ∈ convex_hull points → v ∈ convex_hull sub.
Proof.
  intros Hsub Hv Hhull. apply convex_hull_vertices. split; [done|].
  apply convex_hull_vertices in Hhull as [_ [Hl|Hu]].
  - left. intros a p Ha Hp. apply Hl; auto.
  - right. intros a p Ha Hp. apply Hu; auto.
Qed.

Lemma corners_persist_witness :
  mkPoint 2 0 ∈ convex_hull [mkPoint 2 0; mkPoint 1 1; mkPoint 0 0].
Proof.
  apply (corners_persist
           [mkPoint 0 0; mkPoint 2 0; mkPoint 1 1; mkPoint 2 2; mkPoint 0 2]
           [mkPoint 2 0; mkPoint 1 1; mkPoint 0 0] (mkPoint 2 0)).
  - intros q Hq. rewrite !elem_of_cons, elem_of_nil in Hq.
    destruct Hq as [->|[->|[->|[]]]]; rewrite !elem_of_cons; auto 10.
  - by left.
  - change (convex_hull
              [mkPoint 0 0; mkPoint 2 0; mkPoint 1 1; mkPoint 2 2; mkPoint 0 2])
      with [mkPoint 0 0; mkPoint 2 0; mkPoint 2 2; mkPoint 0 2].
    right. by left.
Defined.
